(** * A shared tic-tac-toe table: the game engine of [game/game.go]

    The engine owns one board, two seats (X and O), a FIFO queue of waiting
    players, a whose-turn marker and a status string.  The Go methods mutate
    the receiver [*Game]; here every method is a computation in a small
    state monad over [Game] whose outcome is either a returned value or a
    Go run-time panic.

    The watchdog goroutine, the logger and the update channel only signal
    other goroutines and never write a field of [Game]; they are left out.

    Seats are [*Player] in Go.  [AddPlayer] and [UpdatePlayer] store the
    address of their own parameter; [advanceQueue] stores the address of
    the popped element [&g.Queue[0]] and re-slices the queue to
    [g.Queue[1:]], so the pointee lies before the start of the queue and no
    later append, splice or indexed write reaches it.  A seat therefore
    never aliases a cell that is written again, and seats hold players by
    value. *)

From stdpp Require Import base decidable option list numbers strings.

Local Open Scope string_scope.
Local Open Scope Z_scope.

(** ** Data model *)

(** [type Piece int] with the constants [blank = 0], [xPiece = -1],
    [oPiece = 1].  The engine only ever stores these three values in a
    board, so the type is the enumeration and [int] gives the Go integer. *)
Inductive Piece : Set := blank | xPiece | oPiece.

Definition int (p : Piece) : Z :=
  match p with
  | blank => 0
  | xPiece => -1
  | oPiece => 1
  end.

Definition xWins : Z := -3.
Definition oWins : Z := 3.

#[global] Instance Piece_eq_dec : EqDecision Piece.
Proof. solve_decision. Defined.

(** Go arrays of length three: [[3]T].  [get] and [set] are the checked
    accesses [a[i]] and [a[i] = v] for an arbitrary Go [int] index ([None]
    is the index-out-of-range panic); [elems] is what [range a] visits. *)
Module array3.
Record t (A : Type) : Type := mk { e0 : A; e1 : A; e2 : A }.
Arguments mk {A} _ _ _.
Arguments e0 {A} _.
Arguments e1 {A} _.
Arguments e2 {A} _.

Definition get {A} (a : t A) (i : Z) : option A :=
  if decide (i = 0) then Some (e0 a)
  else if decide (i = 1) then Some (e1 a)
  else if decide (i = 2) then Some (e2 a)
  else None.

Definition set {A} (a : t A) (i : Z) (v : A) : option (t A) :=
  if decide (i = 0) then Some (mk v (e1 a) (e2 a))
  else if decide (i = 1) then Some (mk (e0 a) v (e2 a))
  else if decide (i = 2) then Some (mk (e0 a) (e1 a) v)
  else None.

Definition elems {A} (a : t A) : list A := [e0 a; e1 a; e2 a].

(** [a[i] += ...] for an index produced by [range]: always in range. *)
Definition update {A} (f : A → A) (i : nat) (a : t A) : t A :=
  match i with
  | 0%nat => mk (f (e0 a)) (e1 a) (e2 a)
  | 1%nat => mk (e0 a) (f (e1 a)) (e2 a)
  | 2%nat => mk (e0 a) (e1 a) (f (e2 a))
  | _ => a
  end.
End array3.

(** [type Board [3][3]Piece]: [b[y][x]], rows first. *)
Definition Board : Type := array3.t (array3.t Piece).

Definition mkBoard (a b c d e f g h i : Piece) : Board :=
  array3.mk (array3.mk a b c) (array3.mk d e f) (array3.mk g h i).

Definition Board_get (b : Board) (y x : Z) : option Piece :=
  row ← array3.get b y; array3.get row x.

Definition Board_set (b : Board) (y x : Z) (p : Piece) : option Board :=
  row ← array3.get b y; row' ← array3.set row x p; array3.set b y row'.

Definition blankBoard : Board :=
  mkBoard blank blank blank  blank blank blank  blank blank blank.

Record Player : Type := mkPlayer { ID : string; Name : option string }.

#[global] Instance Player_eq_dec : EqDecision Player.
Proof. solve_decision. Defined.

(** [type Status string] and its six named values. *)
Definition Status : Type := string.
Definition InsufficientPlayers : Status := "InsufficientPlayers".
Definition NoBoard : Status := "NoBoard".
Definition XWins : Status := "XWins".
Definition OWins : Status := "OWins".
Definition Cats : Status := "Cats".
Definition InProgress : Status := "InProgress".

Record Move : Type := mkMove { YAxis : Z; XAxis : Z; PlayerID : string }.

(** [type Game struct].  The field names carry a [Game_] prefix because
    [Board], [Status] and [Move] are also type names. *)
Record Game : Type := mkGame {
  Game_Board : option Board;      (* *Board, nil when absent *)
  Game_Queue : list Player;
  Game_X : option Player;         (* *Player *)
  Game_O : option Player;
  Game_Move : string;
  Game_Status : Status;
  Game_timeout : Z
}.

Definition set_Board (b : option Board) (g : Game) : Game :=
  mkGame b (Game_Queue g) (Game_X g) (Game_O g) (Game_Move g) (Game_Status g) (Game_timeout g).
Definition set_Queue (q : list Player) (g : Game) : Game :=
  mkGame (Game_Board g) q (Game_X g) (Game_O g) (Game_Move g) (Game_Status g) (Game_timeout g).
Definition set_X (p : option Player) (g : Game) : Game :=
  mkGame (Game_Board g) (Game_Queue g) p (Game_O g) (Game_Move g) (Game_Status g) (Game_timeout g).
Definition set_O (p : option Player) (g : Game) : Game :=
  mkGame (Game_Board g) (Game_Queue g) (Game_X g) p (Game_Move g) (Game_Status g) (Game_timeout g).
Definition set_Move (m : string) (g : Game) : Game :=
  mkGame (Game_Board g) (Game_Queue g) (Game_X g) (Game_O g) m (Game_Status g) (Game_timeout g).
Definition set_Status (s : Status) (g : Game) : Game :=
  mkGame (Game_Board g) (Game_Queue g) (Game_X g) (Game_O g) (Game_Move g) s (Game_timeout g).

(** [New]: the just-constructed game. *)
Definition New (timeout : Z) : Game :=
  {| Game_Board := Some blankBoard;
     Game_Queue := [];
     Game_X := None;
     Game_O := None;
     Game_Move := "";
     Game_Status := InsufficientPlayers;
     Game_timeout := timeout |}.

(** ** Status evaluation *)

Definition checkScore (s : Z) : option Status :=
  if decide (s = oWins) then Some OWins
  else if decide (s = xWins) then Some XWins
  else None.

(** The inner loop [for i, col := range row] of [status], threading
    [movesLeft], [rowSum] and [colSums]. *)
Fixpoint status_row (i : nat) (row : list Piece)
    (movesLeft rowSum : Z) (colSums : array3.t Z) : Z * Z * array3.t Z :=
  match row with
  | [] => (movesLeft, rowSum, colSums)
  | col :: rest =>
      let movesLeft := if decide (int col ≠ 0) then movesLeft - 1 else movesLeft in
      let rowSum := rowSum + int col in
      let colSums := array3.update (λ s, s + int col) i colSums in
      status_row (S i) rest movesLeft rowSum colSums
  end.

(** The outer loop [for _, row := range g.Board]: it returns early with a
    status as soon as [checkScore(boardTotal)] is non-nil. *)
Fixpoint status_rows (rows : list (array3.t Piece))
    (boardTotal movesLeft : Z) (colSums : array3.t Z) : Status + Z * array3.t Z :=
  match rows with
  | [] => inr (movesLeft, colSums)
  | row :: rest =>
      let '(movesLeft, rowSum, colSums) :=
        status_row 0 (array3.elems row) movesLeft 0 colSums in
      let boardTotal := boardTotal + rowSum in
      match checkScore boardTotal with
      | Some s => inl s
      | None => status_rows rest boardTotal movesLeft colSums
      end
  end.

(** [for _, col := range colSums]. *)
Fixpoint status_cols (colSums : list Z) : option Status :=
  match colSums with
  | [] => None
  | col :: rest =>
      match checkScore col with
      | Some s => Some s
      | None => status_cols rest
      end
  end.

Definition status_board (b : Board) : Status :=
  match status_rows (array3.elems b) 0 9 (array3.mk 0 0 0) with
  | inl s => s
  | inr (movesLeft, colSums) =>
      match status_cols (array3.elems colSums) with
      | Some s => s
      | None =>
          let diagonal :=
            int (array3.e0 (array3.e0 b)) + int (array3.e1 (array3.e1 b))
            + int (array3.e2 (array3.e2 b)) in
          match checkScore diagonal with
          | Some s => s
          | None =>
              let diagonal :=
                int (array3.e0 (array3.e2 b)) + int (array3.e1 (array3.e1 b))
                + int (array3.e2 (array3.e0 b)) in
              match checkScore diagonal with
              | Some s => s
              | None => if decide (movesLeft = 0) then Cats else InProgress
              end
          end
      end
  end.

Definition status (g : Game) : Status :=
  if decide (Game_X g = None ∨ Game_O g = None) then InsufficientPlayers
  else match Game_Board g with
       | None => NoBoard
       | Some b => status_board b
       end.

(** ** The engine monad

    A method of [*Game] reads and writes the receiver and either returns or
    panics.  A panic unwinds the method: the fields written before it stay
    written, nothing after it runs. *)

Inductive GoPanic : Set := NilPointerDereference | IndexOutOfRange.

Inductive Outcome (A : Type) : Type :=
  | Returned (a : A)
  | Panicked (p : GoPanic).
Arguments Returned {A} a.
Arguments Panicked {A} p.

Definition M (A : Type) : Type := Game → Outcome A * Game.

#[global] Instance M_ret : MRet M := λ A a g, (Returned a, g).

#[global] Instance M_bind : MBind M := λ A B k m g,
  match m g with
  | (Returned a, g') => k a g'
  | (Panicked p, g') => (Panicked p, g')
  end.

Definition panic {A} (p : GoPanic) : M A := λ g, (Panicked p, g).
Definition get : M Game := λ g, (Returned g, g).
Definition modify (f : Game → Game) : M unit := λ g, (Returned (), f g).

(** [*p] for a pointer that may be nil. *)
Definition deref {A} (p : option A) : M A :=
  match p with
  | Some a => mret a
  | None => panic NilPointerDereference
  end.

(** The result of a bounds-checked access. *)
Definition checked {A} (r : option A) : M A :=
  match r with
  | Some a => mret a
  | None => panic IndexOutOfRange
  end.

(** Go's [error]: nil is [None]. *)
Inductive error : Set := errors_New (msg : string).

Definition ErrPlayerNotFound : error := errors_New "player not found".
Definition ErrGameInProgress : error := errors_New "game in progress".
Definition ErrInvalidMove : error := errors_New "invalid move".

#[global] Instance error_eq_dec : EqDecision error.
Proof. solve_decision. Defined.

(** ** Operations *)

Definition clearBoard : M unit := modify (set_Board (Some blankBoard)).

Definition updateStatus : M unit := modify (λ g, set_Status (status g) g).

(** [advanceQueue]: append the loser (when there is one), then pop the
    front of the queue. *)
Definition advanceQueue (loser : option Player) : M (option Player) :=
  match loser with
  | Some l => modify (λ g, set_Queue (Game_Queue g ++ [l]) g)
  | None => mret ()
  end;;
  g ← get;
  if decide (0 < length (Game_Queue g))%nat then
    next ← checked (Game_Queue g !! 0%nat);
    modify (set_Queue (drop 1 (Game_Queue g)));;
    mret (Some next)
  else mret None.

(** [NextGame].  [coin] is the outcome of [rand.Float32() < 0.5], read only
    in the [Cats] case. *)
Definition NextGame (coin : bool) : M (option error) :=
  g ← get;
  r ← (if decide (Game_Status g = XWins) then
         modify (set_Move "O");;
         clearBoard;;
         g ← get;
         o ← advanceQueue (Game_O g);
         modify (set_O o);;
         mret None
       else if decide (Game_Status g = OWins) then
         modify (set_Move "X");;
         clearBoard;;
         g ← get;
         x ← advanceQueue (Game_X g);
         modify (set_X x);;
         mret None
       else if decide (Game_Status g = Cats) then
         let xWins := coin in
         (if xWins then
            modify (set_Move "O");;
            g ← get;
            o ← advanceQueue (Game_O g);
            modify (set_O o)
          else
            modify (set_Move "X");;
            g ← get;
            x ← advanceQueue (Game_X g);
            modify (set_X x));;
         clearBoard;;
         mret None
       else if decide (Game_Status g = InProgress) then
         g ← get;
         (if decide (Game_X g = None) then
            x ← advanceQueue None; modify (set_X x)
          else mret ());;
         g ← get;
         (if decide (Game_O g = None) then
            o ← advanceQueue None; modify (set_O o)
          else mret ());;
         mret None
       else if decide (Game_Status g = InsufficientPlayers) then
         mret None
       else
         mret (Some ErrGameInProgress));
  match r with
  | Some err => mret (Some err)
  | None => updateStatus;; mret None
  end.

(** [PlacePiece].  [g.X.ID] dereferences the seat and [g.Board[y][x]]
    dereferences the board and indexes it with the caller's integers. *)
Definition Board_at (y x : Z) : M Piece :=
  g ← get;
  b ← deref (Game_Board g);
  checked (Board_get b y x).

Definition Board_assign (y x : Z) (p : Piece) : M unit :=
  g ← get;
  b ← deref (Game_Board g);
  b' ← checked (Board_set b y x p);
  modify (set_Board (Some b')).

Definition PlacePiece (move : Move) : M (option error) :=
  g ← get;
  if decide (Game_Status g ∈ [XWins; OWins; NoBoard; Cats; InsufficientPlayers]) then
    mret (Some ErrInvalidMove)
  else
    r ← (if decide (Game_Move g = "X") then
           x ← deref (Game_X g);
           if decide (ID x ≠ PlayerID move) then mret (Some ErrInvalidMove)
           else
             c ← Board_at (YAxis move) (XAxis move);
             if decide (c ≠ blank) then mret (Some ErrInvalidMove)
             else
               Board_assign (YAxis move) (XAxis move) xPiece;;
               modify (set_Move "O");;
               mret None
         else if decide (Game_Move g = "O") then
           o ← deref (Game_O g);
           if decide (ID o ≠ PlayerID move) then mret (Some ErrInvalidMove)
           else
             c ← Board_at (YAxis move) (XAxis move);
             if decide (c ≠ blank) then mret (Some ErrInvalidMove)
             else
               Board_assign (YAxis move) (XAxis move) oPiece;;
               modify (set_Move "X");;
               mret None
         else mret None);
    match r with
    | Some err => mret (Some err)
    | None => updateStatus;; mret None
    end.

(** [s != nil && s.ID == id] for a seat [s]. *)
Definition seat_is (s : option Player) (id : string) : bool :=
  match s with
  | Some x => bool_decide (ID x = id)
  | None => false
  end.

(** [AddPlayer]: reject an id that is queued or seated, else fill seat X,
    then seat O, then the back of the queue. *)
Definition AddPlayer (p : Player) : M (option error) :=
  g ← get;
  if decide (is_Some (list_find (λ queued, ID p = ID queued) (Game_Queue g))) then
    mret (Some (errors_New "already queued"))
  else if seat_is (Game_X g) (ID p) || seat_is (Game_O g) (ID p) then
    mret (Some (errors_New "already playing"))
  else
    let startGame : M unit := modify (set_Status InProgress) in
    (if decide (Game_X g = None) then
       modify (set_X (Some p));;
       if decide (Game_O g = None) then modify (set_Move "X") else startGame
     else if decide (Game_O g = None) then
       modify (set_O (Some p));;
       if decide (Game_X g = None) then modify (set_Move "O") else startGame
     else
       modify (λ g, set_Queue (Game_Queue g ++ [p]) g));;
    mret None.

(** [UpdatePlayer]: replace the record with this id in seat X, else seat O,
    else at its first position in the queue. *)
Definition UpdatePlayer (p : Player) : M (option error) :=
  g ← get;
  if seat_is (Game_X g) (ID p) then modify (set_X (Some p));; mret None
  else if seat_is (Game_O g) (ID p) then modify (set_O (Some p));; mret None
  else
    match list_find (λ q, ID q = ID p) (Game_Queue g) with
    | Some (i, _) => modify (set_Queue (<[i:=p]> (Game_Queue g)));; mret None
    | None => mret (Some ErrPlayerNotFound)
    end.

(** [RemovePlayer]: a seated player leaves the seat, the board is cleared
    and [NextGame] runs; a queued player is spliced out of the queue. *)
Definition RemovePlayer (id : string) (coin : bool) : M (option error) :=
  g ← get;
  if seat_is (Game_X g) id then
    modify (set_X None);; clearBoard;; NextGame coin
  else if seat_is (Game_O g) id then
    modify (set_O None);; clearBoard;; NextGame coin
  else
    match list_find (λ q, ID q = id) (Game_Queue g) with
    | None => mret (Some ErrPlayerNotFound)
    | Some (idx, _) =>
        modify (set_Queue (take idx (Game_Queue g) ++ drop (S idx) (Game_Queue g)));;
        mret None
    end.

(** ** Reset

    [Clear] has the receiver [g *Game] and its body is [g = New(...)]: the
    assignment rebinds the method's own pointer variable.  Pointers are
    positions in a heap of games; [New_alloc] is [New] returning the address
    of the game it allocates. *)
Definition Heap : Type := list Game.

Definition New_alloc (timeout : Z) (h : Heap) : nat * Heap :=
  (length h, (h ++ [New timeout])%list).

Definition Clear (g : nat) (h : Heap) : Outcome unit * Heap :=
  match h !! g with
  | None => (Panicked NilPointerDereference, h)
  | Some this =>
      let '(g, h) := New_alloc (Game_timeout this) h in
      (Returned (), h)
  end.

(** ** Runs of the engine *)

Inductive Op : Type :=
  | OpAddPlayer (p : Player)
  | OpUpdatePlayer (p : Player)
  | OpRemovePlayer (id : string) (coin : bool)
  | OpPlacePiece (move : Move)
  | OpNextGame (coin : bool).

Definition run_op (op : Op) : M (option error) :=
  match op with
  | OpAddPlayer p => AddPlayer p
  | OpUpdatePlayer p => UpdatePlayer p
  | OpRemovePlayer id coin => RemovePlayer id coin
  | OpPlacePiece move => PlacePiece move
  | OpNextGame coin => NextGame coin
  end.

Definition step (g : Game) (op : Op) : Game := (run_op op g).2.

Definition exec (ops : list Op) (g : Game) : Game := foldl step g ops.

(** The players held by the two seats and the queue, seat X first, and
    their ids. *)
Definition players (g : Game) : list Player :=
  (option_list (Game_X g) ++ option_list (Game_O g) ++ Game_Queue g)%list.

Definition ids (g : Game) : list string := ID <$> players g.

(** The seat whose turn it is, read off [g.Move]. *)
Definition turn_seat (g : Game) : option Player :=
  if decide (Game_Move g = "X") then Game_X g
  else if decide (Game_Move g = "O") then Game_O g
  else None.

(** The nine cells of a board in reading order, its eight lines (rows,
    columns, the two diagonals) and the sum of the weights of a line. *)
Definition cells (b : Board) : list Piece :=
  let '(array3.mk (array3.mk a b c) (array3.mk d e f) (array3.mk g h i)) := b in
  [a; b; c; d; e; f; g; h; i].

Definition lines (b : Board) : list (list Piece) :=
  let '(array3.mk (array3.mk a b c) (array3.mk d e f) (array3.mk g h i)) := b in
  [ [a; b; c]; [d; e; f]; [g; h; i];
    [a; d; g]; [b; e; h]; [c; f; i];
    [a; e; i]; [g; e; c] ].

Definition line_sum (l : list Piece) : Z := foldr Z.add 0 (int <$> l).

(** ** Concrete games used as inputs below *)

Definition alice : Player := mkPlayer "alice" None.
Definition bob : Player := mkPlayer "bob" None.
Definition carol : Player := mkPlayer "carol" None.

(** Two players seated on a blank board, [alice] to move. *)
Definition started : Game := exec [OpAddPlayer alice; OpAddPlayer bob] (New 5).

(** The same table with [carol] waiting. *)
Definition started_queued : Game :=
  exec [OpAddPlayer alice; OpAddPlayer bob; OpAddPlayer carol] (New 5).

Definition place (id : string) (x y : Z) : Op := OpPlacePiece (mkMove y x id).

(** X completes the middle row while O holds two cells of the top row. *)
Definition middle_row_moves : list Op :=
  [ place "alice" 0 1; place "bob" 0 0; place "alice" 1 1; place "bob" 1 0;
    place "alice" 2 1 ].

Definition middle_row_game : Game := exec middle_row_moves started.

(** X completes the left column with [carol] waiting: status [XWins]. *)
Definition left_column_moves : list Op :=
  [ place "alice" 0 0; place "bob" 1 0; place "alice" 0 1; place "bob" 1 1;
    place "alice" 0 2 ].

Definition left_column_game : Game := exec left_column_moves started_queued.

(** X holds four cells of the two upper rows, none of its lines complete. *)
Definition no_line_moves : list Op :=
  [ place "alice" 0 0; place "bob" 2 0; place "alice" 1 0; place "bob" 0 2;
    place "alice" 0 1; place "bob" 1 2; place "alice" 1 1 ].

Definition no_line_game : Game := exec no_line_moves started.

(** The drawn board of the engine's own status test. *)
Definition cats_board : Board :=
  mkBoard xPiece oPiece xPiece  oPiece xPiece oPiece  oPiece xPiece oPiece.

Definition cats_game : Game :=
  mkGame (Some cats_board) [] (Some alice) (Some bob) "X" InProgress 5.

(** [alice] has played the top-left cell; [bob] is to move. *)
Definition first_move_game : Game := exec [place "alice" 0 0] started.

(** A heap holding one game, at address 0. *)
Definition started_heap : Heap := [started].

(** ** The engine invariant

    The stored status is what [status] computes, the board is present, it is
    blank whenever a seat is empty, and the turn marker names a seat as soon
    as the table holds a player. *)
Definition Move_ok (g : Game) : Prop :=
  players g = [] ∨ Game_Move g = "X" ∨ Game_Move g = "O".

Record Inv (g : Game) : Prop := mkInv {
  Inv_status : Game_Status g = status g;
  Inv_board : is_Some (Game_Board g);
  Inv_blank : Game_X g = None ∨ Game_O g = None → Game_Board g = Some blankBoard;
  Inv_move : Move_ok g
}.

(** What [PlacePiece] relies on: the stored status is current and, while a
    round is in progress, the turn marker names a seat. *)
Record Coherent (g : Game) : Prop := mkCoherent {
  Coherent_status : Game_Status g = status g;
  Coherent_turn : Game_Status g = InProgress → Game_Move g = "X" ∨ Game_Move g = "O"
}.

(** ** The watchdog's automatic move

    [playerTurnId]: the id of the player awaiting a move, nil when no round
    is in progress or the turn marker names no seat.  [&g.X.ID]
    dereferences the seat. *)
Definition playerTurnId : M (option string) :=
  g ← get;
  if decide (Game_Status g ≠ InProgress) then mret None
  else if decide (Game_Move g = "X") then
    x ← deref (Game_X g); mret (Some (ID x))
  else if decide (Game_Move g = "O") then
    o ← deref (Game_O g); mret (Some (ID o))
  else mret None.

(** [firstOpenPositionsOnBoard]: the two nested [range] loops, leaving with
    the indices of the first cell equal to 0. *)
Fixpoint firstOpen_row (x : Z) (row : list Piece) : option Z :=
  match row with
  | [] => None
  | col :: rest => if decide (int col = 0) then Some x else firstOpen_row (x + 1) rest
  end.

Fixpoint firstOpen_rows (y : Z) (rows : list (array3.t Piece)) : option (Z * Z) :=
  match rows with
  | [] => None
  | row :: rest =>
      match firstOpen_row 0 (array3.elems row) with
      | Some x => Some (x, y)
      | None => firstOpen_rows (y + 1) rest
      end
  end.

Definition firstOpenPositionsOnBoard : M (Z * Z * option error) :=
  g ← get;
  b ← deref (Game_Board g);
  match firstOpen_rows 0 (array3.elems b) with
  | Some (x, y) => mret (x, y, None)
  | None => mret (-1, -1, Some (errors_New "no empty spots"))
  end.

(** The body of the [case <-time.After(d)] of [setTimeout]'s loop: what one
    expiry of the move timer does to the game.  Its errors are only logged. *)
Definition setTimeout_timeout : M unit :=
  id ← playerTurnId;
  match id with
  | None => mret ()
  | Some id =>
      '(x, y, err) ← firstOpenPositionsOnBoard;
      match err with
      | Some _ => mret ()
      | None =>
          PlacePiece {| PlayerID := id; XAxis := x; YAxis := y |};;
          mret ()
      end
  end.

(** ** The restart handler

    [Handler.Restart] of [controllers.go]: [h.game.Clear()] followed by
    [h.game.NextGame()], whose error is dropped, on the handler's game at
    address [g]. *)
Definition Restart (g : nat) (coin : bool) (h : Heap) : Outcome unit * Heap :=
  match Clear g h with
  | (Panicked p, h) => (Panicked p, h)
  | (Returned _, h) =>
      match h !! g with
      | None => (Panicked NilPointerDereference, h)
      | Some this =>
          match NextGame coin this with
          | (Returned _, this) => (Returned (), <[g := this]> h)
          | (Panicked p, this) => (Panicked p, <[g := this]> h)
          end
      end
  end.

(** ** Piece balance

    The sum of the weights of the nine cells: the number of O marks minus
    the number of X marks. *)
Definition Board_total (b : Board) : Z := line_sum (cells b).

(** The marks alternate: the counts differ by at most one, and the side
    with the extra mark is not the side to move. *)
Definition Balanced (g : Game) : Prop :=
  ∀ b, Game_Board g = Some b →
    Board_total b = 0
    ∨ (Board_total b = -1 ∧ Game_Move g = "O")
    ∨ (Board_total b = 1 ∧ Game_Move g = "X").

(** The mark a seat plays and the marker of the other seat. *)
Definition mark_of (m : string) : Piece := if decide (m = "X") then xPiece else oPiece.
Definition other_seat (m : string) : string := if decide (m = "X") then "O" else "X".

(** ** All boards

    The 19683 boards, for properties of the status evaluation and of the
    scan for an open cell that are decided board by board. *)
Definition all_pieces : list Piece := [blank; xPiece; oPiece].

Definition all_boards : list Board :=
  a ← all_pieces; b ← all_pieces; c ← all_pieces;
  d ← all_pieces; e ← all_pieces; f ← all_pieces;
  g ← all_pieces; h ← all_pieces; i ← all_pieces;
  [mkBoard a b c d e f g h i].

(** The status a complete line of mark [p] stands for. *)
Definition win_of (p : Piece) : Status := if decide (p = xPiece) then XWins else OWins.

(** What the scan answers on a board: the first blank cell in reading
    order, or nothing when no cell of the board is blank. *)
Definition firstOpen_first (b : Board) : Prop :=
  match firstOpen_rows 0 (array3.elems b) with
  | Some (x, y) =>
      Board_get b y x = Some blank
      ∧ Forall (λ y', Forall (λ x',
          Board_get b y' x' = Some blank → y < y' ∨ (y = y' ∧ x ≤ x')) [0; 1; 2]) [0; 1; 2]
  | None =>
      Forall (λ y', Forall (λ x', Board_get b y' x' ≠ Some blank) [0; 1; 2]) [0; 1; 2]
  end.

#[global] Instance firstOpen_first_dec (b : Board) : Decision (firstOpen_first b).
Proof. unfold firstOpen_first. destruct (firstOpen_rows _ _) as [[x y]|]; apply _. Defined.

(** ** Seating and record replacement

    Where [AddPlayer] puts a player whose id is new: seat X of an empty
    table (with the turn marker set to X), the one empty seat (the game
    then starts), or the end of the queue. *)
Definition seated (p : Player) (g : Game) : Game :=
  match Game_X g, Game_O g with
  | None, None => set_Move "X" (set_X (Some p) g)
  | None, Some _ => set_Status InProgress (set_X (Some p) g)
  | Some _, None => set_Status InProgress (set_O (Some p) g)
  | Some _, Some _ => set_Queue (Game_Queue g ++ [p]) g
  end.

(** What [UpdatePlayer] does to one stored record: the record with the id
    of [p] becomes [p], any other stays. *)
Definition replace_record (p q : Player) : Player :=
  if decide (ID q = ID p) then p else q.

(** ** Further inputs *)

Definition left_column_board : Board :=
  mkBoard xPiece oPiece blank  xPiece oPiece blank  xPiece blank blank.
Definition first_move_board : Board :=
  mkBoard xPiece blank blank  blank blank blank  blank blank blank.

(** O completes the middle column with [carol] waiting: status [OWins]. *)
Definition o_column_moves : list Op :=
  [ place "alice" 0 0; place "bob" 1 0; place "alice" 0 1; place "bob" 1 1;
    place "alice" 2 2; place "bob" 1 2 ].
Definition o_column_game : Game := exec o_column_moves started_queued.

(** Nine moves that fill the board without a complete line: status [Cats]. *)
Definition drawn_moves : list Op :=
  [ place "alice" 0 0; place "bob" 1 0; place "alice" 2 0; place "bob" 1 1;
    place "alice" 0 1; place "bob" 2 1; place "alice" 1 2; place "bob" 0 2;
    place "alice" 2 2 ].
Definition drawn_game : Game := exec drawn_moves started_queued.

Definition dave : Player := mkPlayer "dave" None.


(** * Properties *)

(** ** Running the monad *)

Ltac monad_unfold :=
  cbv [mbind M_bind mret M_ret modify get panic deref checked clearBoard updateStatus].

#[local] Arguments advanceQueue : simpl never.

Lemma head_tail {A} (l : list A) : (option_list (head l) ++ tail l)%list = l.
Proof. by destruct l. Qed.

Lemma head_mid_tail {A} (l mid : list A) :
  (option_list (head l) ++ mid ++ tail l)%list ≡ₚ (mid ++ l)%list.
Proof. destruct l; cbn; solve_Permutation. Qed.

(** [advanceQueue] never panics; it is a rotation of the waiting line made
    of the queue followed by the loser. *)
Lemma advanceQueue_eq (loser : option Player) (g : Game) :
  advanceQueue loser g =
    (Returned (head (Game_Queue g ++ option_list loser)),
     set_Queue (tail (Game_Queue g ++ option_list loser)) g).
Proof.
  unfold advanceQueue.
  destruct loser as [l|]; monad_unfold; cbn [Game_Queue set_Queue option_list].
  - case_decide as Hlen.
    + destruct (Game_Queue g) as [|h q'] eqn:Hq; reflexivity.
    + rewrite length_app in Hlen. simpl in Hlen. lia.
  - rewrite app_nil_r. case_decide as Hlen.
    + destruct (Game_Queue g) as [|h q'] eqn:Hq; [simpl in Hlen; lia|reflexivity].
    + destruct g as [b [|h q'] x o m s t]; [reflexivity|simpl in Hlen; lia].
Qed.

Ltac run := repeat first [rewrite advanceQueue_eq | case_decide | progress cbn].

Ltac use_nil :=
  repeat match goal with H : _ = None |- _ => cbn in H; rewrite H; clear H end.

Lemma seat_is_true (s : option Player) (id : string) :
  seat_is s id = true ↔ ∃ p, s = Some p ∧ ID p = id.
Proof.
  destruct s as [p|]; simpl.
  - rewrite bool_decide_eq_true. split; [by exists p|by intros (? & [= <-] & ?)].
  - split; [done|by intros (? & ? & ?)].
Qed.

Lemma seat_is_false (s : option Player) (id : string) :
  seat_is s id = false ↔ ∀ p, s = Some p → ID p ≠ id.
Proof.
  destruct s as [p|]; simpl.
  - rewrite bool_decide_eq_false. split; [by intros ? ? [= <-]|by intros H; apply H].
  - split; [done|done].
Qed.

(** ** The rotation primitive *)

(** C10.  With an empty queue, [advanceQueue] called with an outgoing player
    [P] returns [P] and leaves the game, hence its queue, as it was: the
    queue is empty afterwards. *)
Theorem advanceQueue_empty_queue (g : Game) (P : Player) :
  Game_Queue g = [] → advanceQueue (Some P) g = (Returned (Some P), g).
Proof.
  intros Hq. rewrite advanceQueue_eq, Hq. destruct g; simpl in *; by subst.
Qed.

Lemma advanceQueue_empty_queue_witness :
  Game_Queue started = []
  ∧ advanceQueue (Some carol) started = (Returned (Some carol), started).
Proof.
  split; [reflexivity|]. apply (advanceQueue_empty_queue started carol). reflexivity.
Defined.

(** C3.  For every queue and every optional outgoing player, [advanceQueue]
    appends the outgoing player (when present) to the back of the queue and
    then pops and returns the front ([None] when there is nothing to pop);
    what it returns followed by what it leaves is the old queue followed by
    the outgoing player, so the order of the waiting players is kept.  In
    particular queue [[P1; P2]] and outgoing [O] give [P1] and [[P2; O]]. *)
Theorem advanceQueue_fifo (loser : option Player) (g : Game) :
  let waiting := (Game_Queue g ++ option_list loser)%list in
  advanceQueue loser g = (Returned (head waiting), set_Queue (tail waiting) g)
  ∧ (option_list (head waiting) ++ tail waiting)%list = waiting
  ∧ ∀ P1 P2 O : Player,
      advanceQueue (Some O) (set_Queue [P1; P2] g)
      = (Returned (Some P1), set_Queue [P2; O] g).
Proof.
  intros waiting. split; [apply advanceQueue_eq|]. split.
  - apply head_tail.
  - intros P1 P2 O. by rewrite advanceQueue_eq.
Qed.

(** ** Round advancement *)

(** C2.  In a game whose status is [XWins] and whose queue is [hd :: tl],
    [NextGame] returns no error, keeps seat X, seats the queue head [hd] in
    seat O, leaves the queue as [tl] followed by the previous occupant of
    seat O, clears the board and gives the move to O. *)
Theorem NextGame_XWins (coin : bool) (g : Game) (hd : Player) (tl : list Player) :
  Game_Status g = XWins →
  Game_Queue g = hd :: tl →
  ∃ g', NextGame coin g = (Returned None, g')
    ∧ Game_X g' = Game_X g
    ∧ Game_O g' = Some hd
    ∧ Game_Queue g' = (tl ++ option_list (Game_O g))%list
    ∧ Game_Board g' = Some blankBoard
    ∧ Game_Move g' = "O".
Proof.
  intros Hs Hq. unfold NextGame. monad_unfold.
  rewrite decide_True by done.
  rewrite advanceQueue_eq. cbn. rewrite Hq. cbn.
  eexists. split; [reflexivity|]. by cbn.
Qed.

Lemma NextGame_XWins_witness :
  Game_Status left_column_game = XWins
  ∧ Game_Queue left_column_game = [carol]
  ∧ ∃ g', NextGame true left_column_game = (Returned None, g')
      ∧ Game_X g' = Some alice
      ∧ Game_O g' = Some carol
      ∧ Game_Queue g' = [bob]
      ∧ Game_Board g' = Some blankBoard
      ∧ Game_Move g' = "O".
Proof.
  split; [reflexivity|]. split; [reflexivity|].
  apply (NextGame_XWins true left_column_game carol []); reflexivity.
Defined.

(** ** Status evaluation *)

Lemma status_seated (g : Game) (b : Board) :
  is_Some (Game_X g) → is_Some (Game_O g) → Game_Board g = Some b →
  status g = status_board b.
Proof.
  intros [x Hx] [o Ho] Hb. unfold status.
  rewrite decide_False by (rewrite Hx, Ho; intros [?|?]; done). by rewrite Hb.
Qed.

(** C1 (the code departs from the claim).  After five legal moves X owns the
    whole middle row, whose weights sum to -3, both seats are occupied and
    the board is present, yet [status] answers [InProgress] and the stored
    status stays [InProgress]: the row scan hands the running [boardTotal]
    (here 2, then -1) to [checkScore], not the sum of the row. *)
Theorem status_misses_middle_row :
  Game_Board middle_row_game
    = Some (mkBoard oPiece oPiece blank  xPiece xPiece xPiece  blank blank blank)
  ∧ is_Some (Game_X middle_row_game) ∧ is_Some (Game_O middle_row_game)
  ∧ [xPiece; xPiece; xPiece]
      ∈ lines (mkBoard oPiece oPiece blank  xPiece xPiece xPiece  blank blank blank)
  ∧ line_sum [xPiece; xPiece; xPiece] = xWins
  ∧ status middle_row_game = InProgress
  ∧ Game_Status middle_row_game = InProgress.
Proof.
  split; [by vm_compute|]. split; [by exists alice; vm_compute|].
  split; [by exists bob; vm_compute|].
  split; [by apply (bool_decide_unpack _)|]. repeat split; by vm_compute.
Qed.

(** The same slip the other way round: after seven legal moves no line of
    the board sums to -3 or +3, yet the two upper rows together sum to -3
    and [status] answers [XWins]. *)
Lemma status_win_without_line :
  Game_Board no_line_game
    = Some (mkBoard xPiece xPiece oPiece  xPiece xPiece blank  oPiece oPiece blank)
  ∧ Forall (λ l, line_sum l ≠ -3 ∧ line_sum l ≠ 3)
      (lines (mkBoard xPiece xPiece oPiece  xPiece xPiece blank  oPiece oPiece blank))
  ∧ status no_line_game = XWins.
Proof.
  split; [by vm_compute|]. split; [|by vm_compute].
  by apply (bool_decide_unpack _).
Qed.

(** C7.  With both seats occupied, a board whose nine cells are all
    non-empty and none of whose rows, columns and diagonals sums to -3 or
    +3 has status [Cats]. *)
Theorem status_full_board_Cats (g : Game) (b : Board) :
  is_Some (Game_X g) → is_Some (Game_O g) → Game_Board g = Some b →
  (∀ c, c ∈ cells b → c ≠ blank) →
  (∀ l, l ∈ lines b → line_sum l ≠ -3 ∧ line_sum l ≠ 3) →
  status g = Cats.
Proof.
  intros Hx Ho Hb Hfull Hlines. rewrite (status_seated g b) by done.
  clear g Hx Ho Hb.
  assert (bool_decide (Forall (λ c, c ≠ blank) (cells b)) = true) as Hf
    by (apply bool_decide_eq_true, Forall_forall, Hfull).
  assert (bool_decide
            (Forall (λ l, line_sum l ≠ -3 ∧ line_sum l ≠ 3) (lines b)) = true) as Hl
    by (apply bool_decide_eq_true, Forall_forall, Hlines).
  clear Hfull Hlines.
  destruct b as [[a b c] [d e f] [g h i]].
  destruct a; [discriminate Hf| |];
  (destruct b; [discriminate Hf| |]);
  (destruct c; [discriminate Hf| |]);
  (destruct d; [discriminate Hf| |]);
  (destruct e; [discriminate Hf| |]);
  (destruct f; [discriminate Hf| |]);
  (destruct g; [discriminate Hf| |]);
  (destruct h; [discriminate Hf| |]);
  (destruct i; [discriminate Hf| |]);
  first [ discriminate Hl | reflexivity ].
Qed.

Lemma status_full_board_Cats_witness : status cats_game = Cats.
Proof.
  apply (status_full_board_Cats cats_game cats_board).
  - by eexists.
  - by eexists.
  - reflexivity.
  - apply Forall_forall. by apply (bool_decide_unpack _).
  - apply Forall_forall. by apply (bool_decide_unpack _).
Defined.

(** A line check only ever answers [OWins] or [XWins], so that [status]
    answers one of five of the six statuses when the board is present. *)
Lemma checkScore_Some (s : Z) (st : Status) :
  checkScore s = Some st → st = OWins ∨ st = XWins.
Proof. unfold checkScore. repeat case_decide; intros [= <-]; auto. Qed.

Lemma status_rows_inl rows boardTotal movesLeft colSums st :
  status_rows rows boardTotal movesLeft colSums = inl st → st = OWins ∨ st = XWins.
Proof.
  revert boardTotal movesLeft colSums.
  induction rows as [|row rows IH]; intros boardTotal movesLeft colSums; [done|].
  cbn [status_rows]. destruct (status_row _ _ _ _ _) as [[ml rs] cs].
  destruct (checkScore _) as [s|] eqn:Hs.
  - intros [= <-]. by eapply checkScore_Some.
  - apply IH.
Qed.

Lemma status_cols_Some colSums st :
  status_cols colSums = Some st → st = OWins ∨ st = XWins.
Proof.
  induction colSums as [|c cs IH]; [done|]. cbn.
  destruct (checkScore c) as [s|] eqn:Hs; [|done].
  intros [= <-]. by eapply checkScore_Some.
Qed.

Lemma status_board_cases (b : Board) :
  status_board b = XWins ∨ status_board b = OWins
  ∨ status_board b = Cats ∨ status_board b = InProgress.
Proof.
  unfold status_board.
  repeat case_match; simplify_eq;
    repeat match goal with
    | H : status_rows _ _ _ _ = inl _ |- _ => apply status_rows_inl in H as [-> | ->]
    | H : status_cols _ = Some _ |- _ => apply status_cols_Some in H as [-> | ->]
    | H : checkScore _ = Some _ |- _ => apply checkScore_Some in H as [-> | ->]
    end; auto 6.
Qed.

(** What [status] answers, by cases on the seats. *)
Lemma status_cases (g : Game) :
  is_Some (Game_Board g) →
  (status g = InsufficientPlayers ∧ (Game_X g = None ∨ Game_O g = None))
  ∨ (is_Some (Game_X g) ∧ is_Some (Game_O g)
     ∧ (status g = XWins ∨ status g = OWins ∨ status g = Cats ∨ status g = InProgress)).
Proof.
  intros [b Hb]. unfold status. case_decide as Hseat; [by left|]. right.
  rewrite Hb. split_and!; [| |apply status_board_cases].
  - apply not_eq_None_Some. tauto.
  - apply not_eq_None_Some. tauto.
Qed.

(** ** Seats and queue hold distinct players *)

Lemma rotate_X (x o : option Player) (q : list Player) :
  (option_list (head (q ++ option_list x)) ++ option_list o ++ tail (q ++ option_list x))%list
  ≡ₚ (option_list x ++ option_list o ++ q)%list.
Proof.
  transitivity ((option_list (head (q ++ option_list x)) ++ tail (q ++ option_list x))
                ++ option_list o)%list; [solve_Permutation|].
  rewrite head_tail. solve_Permutation.
Qed.

Lemma rotate_O (x o : option Player) (q : list Player) :
  (option_list x ++ option_list (head (q ++ option_list o)) ++ tail (q ++ option_list o))%list
  ≡ₚ (option_list x ++ option_list o ++ q)%list.
Proof. rewrite head_tail. solve_Permutation. Qed.

Lemma NextGame_players (coin : bool) (g : Game) :
  players (NextGame coin g).2 ≡ₚ players g.
Proof.
  unfold NextGame. monad_unfold. destruct coin; run; unfold players; cbn;
    try reflexivity; try apply rotate_X; try apply rotate_O.
  all: use_nil; cbn; rewrite ?app_nil_r, ?head_tail; try reflexivity.
  all: apply head_mid_tail.
Qed.

Lemma NoDup_ids_perm (g g' : Game) :
  players g' ≡ₚ players g → NoDup (ids g) → NoDup (ids g').
Proof. unfold ids. by intros ->. Qed.

Lemma PlacePiece_players (move : Move) (g : Game) :
  players (PlacePiece move g).2 = players g.
Proof.
  unfold PlacePiece, Board_at, Board_assign. monad_unfold.
  repeat first [case_decide | case_match | progress cbn in * | progress simplify_eq];
    reflexivity.
Qed.

Lemma RemovePlayer_players (id : string) (coin : bool) (g : Game) :
  ∃ l, players (RemovePlayer id coin g).2 ≡ₚ l ∧ l `sublist_of` players g.
Proof.
  unfold RemovePlayer. monad_unfold.
  destruct (seat_is (Game_X g) id) eqn:Hx.
  { apply seat_is_true in Hx as (p & Hx & _).
    eexists. split; [apply NextGame_players|]. unfold players; cbn. rewrite Hx.
    by apply sublist_cons. }
  destruct (seat_is (Game_O g) id) eqn:Ho.
  { apply seat_is_true in Ho as (p & Ho & _).
    eexists. split; [apply NextGame_players|]. unfold players; cbn. rewrite Ho.
    apply sublist_app; [done|]. by apply sublist_cons. }
  destruct (list_find _ _) as [[idx q]|] eqn:Hfind; cbn; [|by eexists].
  eexists. split; [done|]. apply list_find_Some in Hfind as (Hq & _ & _).
  unfold players; cbn. do 2 (apply sublist_app; [done|]).
  rewrite <- (take_drop_middle _ _ _ Hq) at 3.
  apply sublist_app; [done|]. by apply sublist_cons.
Qed.

Lemma UpdatePlayer_ids (p : Player) (g : Game) :
  ids (UpdatePlayer p g).2 = ids g.
Proof.
  unfold UpdatePlayer. monad_unfold.
  destruct (seat_is (Game_X g) (ID p)) eqn:Hx.
  { apply seat_is_true in Hx as (x & Hx & Hid).
    unfold ids, players; cbn. rewrite Hx. cbn. by rewrite Hid. }
  destruct (seat_is (Game_O g) (ID p)) eqn:Ho.
  { apply seat_is_true in Ho as (o & Ho & Hid).
    unfold ids, players; cbn. rewrite Ho, !fmap_app. cbn. by rewrite Hid. }
  destruct (list_find _ _) as [[idx q]|] eqn:Hfind; cbn; [|done].
  apply list_find_Some in Hfind as (Hq & Hid & _).
  unfold ids, players; cbn. rewrite !fmap_app. do 2 f_equal.
  rewrite list_fmap_insert. apply list_insert_id.
  rewrite list_lookup_fmap, Hq. cbn. by rewrite Hid.
Qed.

Lemma AddPlayer_ids (p : Player) (g : Game) :
  ids (AddPlayer p g).2 = ids g
  ∨ ((ID p ∉ ids g) ∧ ids (AddPlayer p g).2 ≡ₚ ID p :: ids g).
Proof.
  unfold AddPlayer. monad_unfold.
  case_decide as Hq; [by left|].
  destruct (seat_is (Game_X g) (ID p)) eqn:Hx; [by left|].
  destruct (seat_is (Game_O g) (ID p)) eqn:Ho; [by left|].
  right. cbn. split.
  - unfold ids, players. rewrite !fmap_app, !elem_of_app.
    rewrite seat_is_false in Hx. rewrite seat_is_false in Ho.
    intros [Hin | [Hin | Hin]].
    + destruct (Game_X g) as [x|]; [|by apply elem_of_nil in Hin].
      apply list_elem_of_singleton in Hin. by eapply Hx.
    + destruct (Game_O g) as [o|]; [|by apply elem_of_nil in Hin].
      apply list_elem_of_singleton in Hin. by eapply Ho.
    + apply list_elem_of_fmap in Hin as (q & Hid & Hin).
      apply Hq. apply not_eq_None_Some. intros Hnone.
      eapply list_find_None, Forall_forall in Hnone; [|done]. done.
  - unfold ids, players.
    repeat first [case_decide | progress cbn];
    repeat match goal with H : _ = None |- _ => rewrite H; clear H end; cbn;
    rewrite ?fmap_app; cbn; solve_Permutation.
Qed.

(** One operation keeps the ids pairwise distinct. *)
Lemma step_NoDup (g : Game) (op : Op) : NoDup (ids g) → NoDup (ids (step g op)).
Proof.
  intros Hnd. unfold step. destruct op as [p|p|id coin|move|coin]; cbn [run_op].
  - destruct (AddPlayer_ids p g) as [-> | [Hfresh ->]]; [done|].
    by apply NoDup_cons.
  - by rewrite UpdatePlayer_ids.
  - destruct (RemovePlayer_players id coin g) as (l & Hperm & Hsub).
    unfold ids. rewrite Hperm. eapply sublist_NoDup; [exact Hnd|].
    by apply fmap_sublist.
  - unfold ids. by rewrite PlacePiece_players.
  - apply (NoDup_ids_perm g); [apply NextGame_players|done].
Qed.

Lemma exec_snoc (ops : list Op) (op : Op) (g : Game) :
  exec (ops ++ [op]) g = step (exec ops g) op.
Proof. unfold exec. by rewrite foldl_snoc. Qed.

Lemma exec_NoDup (ops : list Op) (timeout : Z) :
  NoDup (ids (exec ops (New timeout))).
Proof.
  induction ops as [|op ops IH] using rev_ind.
  - apply NoDup_nil_2.
  - rewrite exec_snoc. by apply step_NoDup.
Qed.

(** What [NoDup (ids g)] says, seat by seat. *)
Lemma NoDup_ids_spec (g : Game) :
  NoDup (ids g) →
  NoDup (ID <$> Game_Queue g)
  ∧ (∀ x, Game_X g = Some x → ID x ∉ ID <$> Game_Queue g)
  ∧ (∀ o, Game_O g = Some o → ID o ∉ ID <$> Game_Queue g)
  ∧ (∀ x o, Game_X g = Some x → Game_O g = Some o → ID x ≠ ID o).
Proof.
  unfold ids, players. rewrite !fmap_app.
  destruct (Game_X g) as [x|], (Game_O g) as [o|]; cbn.
  - intros [Hx [Ho Hq]%NoDup_cons]%NoDup_cons.
    rewrite not_elem_of_cons in Hx. destruct Hx as [Hxo Hx].
    split_and!; [done|by intros ? [= <-]|by intros ? [= <-]|by intros ? ? [= <-] [= <-]].
  - intros [Hx Hq]%NoDup_cons. split_and!; [done|by intros ? [= <-]|done|done].
  - intros [Ho Hq]%NoDup_cons. split_and!; [done|done|by intros ? [= <-]|done].
  - intros Hq. split_and!; done.
Qed.

(** C9.  Starting from the just-constructed game, after every sequence of
    [AddPlayer], [UpdatePlayer], [RemovePlayer], [PlacePiece] and [NextGame]
    calls (whatever they return, and whatever the coin of a draw shows) no
    id occurs twice within the queue, the id of seat X and the id of seat O
    do not occur in the queue, and the two seats hold different ids. *)
Theorem exec_ids_distinct (ops : list Op) (timeout : Z) :
  let g := exec ops (New timeout) in
  NoDup (ID <$> Game_Queue g)
  ∧ (∀ x, Game_X g = Some x → ID x ∉ ID <$> Game_Queue g)
  ∧ (∀ o, Game_O g = Some o → ID o ∉ ID <$> Game_Queue g)
  ∧ (∀ x o, Game_X g = Some x → Game_O g = Some o → ID x ≠ ID o).
Proof. intros g. apply NoDup_ids_spec, exec_NoDup. Qed.

(** ** The engine invariant holds in every reachable state *)

(** A coherent game that accepts moves is in progress: both seats are
    occupied, the board is present and the turn marker names an occupied
    seat. *)
Lemma Coherent_accepting (g : Game) :
  Coherent g →
  Game_Status g ∉ [XWins; OWins; NoBoard; Cats; InsufficientPlayers] →
  Game_Status g = InProgress
  ∧ is_Some (Game_X g) ∧ is_Some (Game_O g) ∧ is_Some (Game_Board g)
  ∧ is_Some (turn_seat g).
Proof.
  intros [Hs Hm] Hacc.
  rewrite !not_elem_of_cons in Hacc. destruct Hacc as (H1 & H2 & H3 & H4 & H5 & _).
  unfold status in Hs. case_decide as Hseat; [done|].
  destruct (Game_Board g) as [b|] eqn:Hb; [|done].
  assert (is_Some (Game_X g) ∧ is_Some (Game_O g)) as [Hx Ho]
    by (rewrite <- !not_eq_None_Some; tauto).
  assert (Game_Status g = InProgress) as Hst.
  { destruct (status_board_cases b) as [?|[?|[?|?]]]; congruence. }
  split_and!; try done.
  unfold turn_seat. destruct (Hm Hst) as [-> | ->].
  - by rewrite decide_True.
  - by rewrite decide_False, decide_True.
Qed.

Lemma Inv_Coherent (g : Game) : Inv g → Coherent g.
Proof.
  intros [Hs Hb Hbl Hm]. split; [done|]. intros Hst.
  destruct Hm as [Hnil | Hm]; [|done]. exfalso.
  rewrite Hs in Hst. unfold status in Hst. case_decide as Hseat; [done|].
  unfold players in Hnil. destruct (Game_X g); [done|]. apply Hseat. by left.
Qed.

Lemma Inv_New (timeout : Z) : Inv (New timeout).
Proof. split; [done|by eexists|done|by left]. Qed.

Ltac decide_seats :=
  repeat first
    [ rewrite decide_True in * by auto
    | rewrite decide_False in * by (first [done | intros [?|?]; done]) ].

Lemma AddPlayer_Inv (p : Player) (g : Game) : Inv g → Inv (AddPlayer p g).2.
Proof.
  intros [Hs Hb Hbl Hm]. unfold AddPlayer. monad_unfold.
  case_decide as Hq; [done|].
  destruct (seat_is (Game_X g) (ID p)) eqn:Hx; [done|].
  destruct (seat_is (Game_O g) (ID p)) eqn:Ho; [done|]. clear Hq Hx Ho.
  destruct g as [b q x o m s t]. unfold Move_ok, players in *. cbn in *.
  destruct x as [x|], o as [o|]; cbn.
  all: repeat (rewrite decide_True by done) || (rewrite decide_False by done); cbn.
  all: try (assert (b = Some blankBoard) as -> by (apply Hbl; auto)).
  all: split; unfold Move_ok, players, status in *; cbn in *; decide_seats;
    try done; auto.
  all: destruct Hm as [?|?]; [done|auto].
Qed.

Ltac inv_solve :=
  split; unfold Move_ok, players, status in *; cbn in *; decide_seats;
  try done; auto;
  try (intros [?|?]; by auto);
  try match goal with
      | H : _ ∨ _ |- _ ∨ _ => destruct H as [?|?]; [done|by auto]
      end.

Lemma UpdatePlayer_Inv (p : Player) (g : Game) : Inv g → Inv (UpdatePlayer p g).2.
Proof.
  intros [Hs Hb Hbl Hm]. unfold UpdatePlayer. monad_unfold.
  destruct (seat_is (Game_X g) (ID p)) eqn:Hx.
  { apply seat_is_true in Hx as (x & Hx & _).
    destruct g as [b q ? [o|] m s t]; cbn in *; subst; inv_solve. }
  destruct (seat_is (Game_O g) (ID p)) eqn:Ho.
  { apply seat_is_true in Ho as (o & Ho & _).
    destruct g as [b q [x|] ? m s t]; cbn in *; subst; inv_solve. }
  destruct (list_find _ _) as [[idx y]|] eqn:Hfind; cbn; [|done].
  apply list_find_Some in Hfind as (Hq & _ & _).
  destruct g as [b q x o m s t]. cbn in *.
  split; unfold Move_ok, players, status in *; cbn in *; try done.
  destruct Hm as [Hm|?]; [|auto].
  apply app_eq_nil in Hm as [_ [_ ->]%app_eq_nil]. done.
Qed.

Lemma NextGame_Inv_gen (coin : bool) (g : Game) :
  is_Some (Game_Board g) →
  Game_Status g = XWins ∨ Game_Status g = OWins ∨ Game_Status g = Cats
    ∨ Game_Status g = InProgress ∨ Game_Status g = InsufficientPlayers →
  (Game_X g = None ∨ Game_O g = None → Game_Board g = Some blankBoard) →
  Move_ok g →
  Inv (NextGame coin g).2.
Proof.
  intros Hb Hst Hbl Hm. unfold NextGame. monad_unfold.
  destruct g as [b q x o m s t]. cbn in *.
  destruct Hst as [-> | [-> | [-> | [-> | ->]]]]; decide_seats;
    destruct coin, x as [x|], o as [o|], q as [|hd tl];
    repeat first [rewrite advanceQueue_eq | progress cbn | progress decide_seats].
  all: try (assert (b = Some blankBoard) as -> by (apply Hbl; auto)).
  all: inv_solve.
Qed.

Lemma Inv_status_cases (g : Game) :
  Inv g →
  Game_Status g = XWins ∨ Game_Status g = OWins ∨ Game_Status g = Cats
    ∨ Game_Status g = InProgress ∨ Game_Status g = InsufficientPlayers.
Proof.
  intros [Hs Hb _ _]. rewrite Hs.
  destruct (status_cases g Hb) as [[-> _] | (_ & _ & [->|[->|[->| ->]]])]; auto 6.
Qed.

Lemma NextGame_Inv (coin : bool) (g : Game) : Inv g → Inv (NextGame coin g).2.
Proof.
  intros HI. apply NextGame_Inv_gen; [apply HI|by apply Inv_status_cases|apply HI..].
Qed.

Lemma RemovePlayer_Inv (id : string) (coin : bool) (g : Game) :
  Inv g → Inv (RemovePlayer id coin g).2.
Proof.
  intros HI. pose proof (Inv_status_cases g HI) as Hst.
  destruct HI as [Hs Hb Hbl Hm]. unfold RemovePlayer. monad_unfold.
  destruct (seat_is (Game_X g) id) eqn:Hx.
  { apply seat_is_true in Hx as (x & Hx & _).
    apply NextGame_Inv_gen; cbn; [by eexists|done|done|].
    destruct Hm as [Hm|Hm]; [|by right].
    unfold players in Hm. by rewrite Hx in Hm. }
  destruct (seat_is (Game_O g) id) eqn:Ho.
  { apply seat_is_true in Ho as (o & Ho & _).
    apply NextGame_Inv_gen; cbn; [by eexists|done|done|].
    destruct Hm as [Hm|Hm]; [|by right].
    unfold players in Hm. rewrite Ho in Hm. by destruct (Game_X g). }
  destruct (list_find _ _) as [[idx y]|] eqn:Hfind; cbn; [|done].
  apply list_find_Some in Hfind as (Hq & _ & _).
  destruct g as [b q x o m s t]. cbn in *.
  split; unfold Move_ok, players, status in *; cbn in *; try done.
  destruct Hm as [Hm|?]; [|auto].
  apply app_eq_nil in Hm as [_ [_ ->]%app_eq_nil]. done.
Qed.

Lemma PlacePiece_Inv (move : Move) (g : Game) : Inv g → Inv (PlacePiece move g).2.
Proof.
  intros HI. unfold PlacePiece. monad_unfold.
  case_decide as Hacc; [done|].
  destruct (Coherent_accepting g (Inv_Coherent g HI) Hacc)
    as (Hst & [x Hx] & [o Ho] & [b Hb] & _).
  destruct HI as [Hs _ Hbl Hm].
  unfold Board_at, Board_assign. monad_unfold.
  destruct g as [? q ? ? m s t]. cbn in *. subst.
  repeat first [case_decide | case_match | progress simplify_eq | progress cbn in *];
    try done.
  all: inv_solve.
Qed.

Lemma step_Inv (g : Game) (op : Op) : Inv g → Inv (step g op).
Proof.
  intros HI. unfold step. destruct op as [p|p|id coin|move|coin]; cbn [run_op].
  - by apply AddPlayer_Inv.
  - by apply UpdatePlayer_Inv.
  - by apply RemovePlayer_Inv.
  - by apply PlacePiece_Inv.
  - by apply NextGame_Inv.
Qed.

(** Every state the engine reaches from [New] satisfies the invariant; in
    particular its stored status is the one [status] computes. *)
Lemma exec_Inv (ops : list Op) (timeout : Z) : Inv (exec ops (New timeout)).
Proof.
  induction ops as [|op ops IH] using rev_ind.
  - apply Inv_New.
  - rewrite exec_snoc. by apply step_Inv.
Qed.

Lemma exec_Coherent (ops : list Op) (timeout : Z) :
  Coherent (exec ops (New timeout)).
Proof. apply Inv_Coherent, exec_Inv. Qed.

(** ** Placing a move *)

(** The three ways [PlacePiece] turns a move down, for an arbitrary [Game]
    record. *)
Lemma PlacePiece_rejected (g : Game) (move : Move) :
  Game_Status g ∈ [XWins; OWins; NoBoard; Cats; InsufficientPlayers]
  ∨ (∃ p, turn_seat g = Some p ∧ ID p ≠ PlayerID move)
  ∨ (∃ p b c, turn_seat g = Some p ∧ Game_Board g = Some b
       ∧ Board_get b (YAxis move) (XAxis move) = Some c ∧ c ≠ blank) →
  PlacePiece move g = (Returned (Some ErrInvalidMove), g).
Proof.
  intros H. unfold PlacePiece. monad_unfold.
  case_decide as Hst; [done|].
  destruct H as [Ha | H]; [done|].
  unfold turn_seat in H. unfold Board_at. monad_unfold.
  destruct H as [(p & Hp & Hid) | (p & b & c & Hp & Hb & Hc & Hocc)].
  - repeat case_decide; try done; rewrite Hp; by rewrite decide_True.
  - repeat case_decide; try done; rewrite Hp; case_decide; try done;
      rewrite Hb, Hc; by rewrite decide_True.
Qed.

(** C4.  In every coherent game state (every state the engine reaches is
    one, by [exec_Coherent]) and for every move, [PlacePiece] returns [ErrInvalidMove] and leaves the whole game (board,
    seats, queue, whose-turn marker, status) as it was whenever (a) the
    status is one of [XWins], [OWins], [NoBoard], [Cats],
    [InsufficientPlayers], or (b) the submitted id is not the id of the
    seat whose turn it is, or (c) the targeted cell is occupied.  An
    occupied cell is an in-range cell; (a) and (b) hold for every pair of
    coordinates. *)
Theorem PlacePiece_rejects (g : Game) (move : Move) :
  Coherent g →
  Game_Status g ∈ [XWins; OWins; NoBoard; Cats; InsufficientPlayers]
  ∨ ID <$> turn_seat g ≠ Some (PlayerID move)
  ∨ (∃ b c, Game_Board g = Some b
       ∧ Board_get b (YAxis move) (XAxis move) = Some c ∧ c ≠ blank) →
  PlacePiece move g = (Returned (Some ErrInvalidMove), g).
Proof.
  intros HI H. apply PlacePiece_rejected.
  destruct (decide (Game_Status g ∈ [XWins; OWins; NoBoard; Cats; InsufficientPlayers]))
    as [Hrej|Hacc]; [by left|].
  destruct (Coherent_accepting g HI Hacc) as (_ & _ & _ & _ & [p Hp]).
  destruct H as [Ha | [Hb | (b & c & Hb & Hc & Hocc)]]; [done| |].
  - right; left. exists p. split; [done|]. rewrite Hp in Hb. cbn in Hb. congruence.
  - right; right. by exists p, b, c.
Qed.

Lemma PlacePiece_rejects_witness :
  PlacePiece (mkMove 0 0 "bob") first_move_game
  = (Returned (Some ErrInvalidMove), first_move_game).
Proof.
  apply (PlacePiece_rejects first_move_game (mkMove 0 0 "bob")).
  - split; [reflexivity|by right].
  - right. right.
    exists (mkBoard xPiece blank blank  blank blank blank  blank blank blank), xPiece.
    repeat split; done.
Defined.

Lemma Board_get_out_of_range (b : Board) (y x : Z) :
  ¬ (0 ≤ x ≤ 2 ∧ 0 ≤ y ≤ 2) → Board_get b y x = None.
Proof.
  intros H. unfold Board_get, array3.get.
  repeat case_decide; simpl; repeat case_decide; try done; lia.
Qed.

(** C8, as the code has it.  In every coherent in-progress game state a
    move whose coordinates lie outside [0,2]x[0,2] changes nothing in the
    game; it is answered with [ErrInvalidMove] when the submitted id is not
    the id of the player to move, and otherwise the unguarded
    [g.Board[y][x]] raises Go's index-out-of-range panic: no error value is
    returned. *)
Theorem PlacePiece_out_of_range (g : Game) (move : Move) :
  Coherent g →
  Game_Status g = InProgress →
  ¬ (0 ≤ XAxis move ≤ 2 ∧ 0 ≤ YAxis move ≤ 2) →
  PlacePiece move g =
    (if decide (ID <$> turn_seat g = Some (PlayerID move))
     then Panicked IndexOutOfRange
     else Returned (Some ErrInvalidMove), g).
Proof.
  intros HI Hst Hrange.
  assert (Game_Status g ∉ [XWins; OWins; NoBoard; Cats; InsufficientPlayers]) as Hacc
    by (rewrite Hst; apply (bool_decide_unpack _); vm_compute; exact I).
  destruct (Coherent_accepting g HI Hacc) as (_ & _ & _ & [b Hb] & [p Hp]).
  case_decide as Hid.
  - unfold PlacePiece, Board_at. monad_unfold.
    rewrite decide_False by done. rewrite Hp in Hid. cbn in Hid.
    unfold turn_seat in Hp.
    repeat case_decide; try done; rewrite Hp; repeat case_decide; try congruence;
      by rewrite Hb, Board_get_out_of_range.
  - apply PlacePiece_rejected. right; left. exists p. split; [done|].
    rewrite Hp in Hid. cbn in Hid. congruence.
Qed.

Lemma PlacePiece_out_of_range_witness :
  PlacePiece (mkMove 0 3 "alice") started = (Panicked IndexOutOfRange, started).
Proof.
  apply (PlacePiece_out_of_range started (mkMove 0 3 "alice")).
  - split; [reflexivity|by left].
  - reflexivity.
  - cbn. lia.
Defined.

(** C8, as the claim states it, fails: in the in-progress game [started] the
    player to move submits x = 3, y = 0, and [PlacePiece] panics; it returns
    no error. *)
Lemma unguarded_index_panics :
  Game_Status started = InProgress
  ∧ PlacePiece (mkMove 0 3 "alice") started = (Panicked IndexOutOfRange, started)
  ∧ ¬ ∃ err g', PlacePiece (mkMove 0 3 "alice") started = (Returned (Some err), g').
Proof.
  split; [reflexivity|]. split; [reflexivity|]. by intros (err & g' & H).
Qed.

(** ** Removing a player *)

(** While the stored status is [InProgress] and both seats are occupied,
    removing the player of seat X clears the board, reseeds seat X from the
    queue head (the seat stays empty when the queue is empty) and keeps
    seat O. *)
Lemma RemovePlayer_X_InProgress (g : Game) (x o : Player) (coin : bool) :
  Game_Status g = InProgress →
  Game_X g = Some x → Game_O g = Some o →
  ∃ g', RemovePlayer (ID x) coin g = (Returned None, g')
    ∧ Game_X g' = head (Game_Queue g)
    ∧ Game_Queue g' = tail (Game_Queue g)
    ∧ Game_O g' = Some o
    ∧ Game_Board g' = Some blankBoard.
Proof.
  intros Hst Hx Ho. unfold RemovePlayer. monad_unfold.
  rewrite Hx. cbn. rewrite bool_decide_true by done.
  unfold NextGame. monad_unfold.
  repeat first [rewrite advanceQueue_eq | rewrite Hst | rewrite Ho
               | rewrite decide_True by done | rewrite decide_False by done
               | progress cbn].
  rewrite app_nil_r.
  eexists. split; [reflexivity|]. by cbn.
Qed.

(** The same for seat O. *)
Lemma RemovePlayer_O_InProgress (g : Game) (x o : Player) (coin : bool) :
  Game_Status g = InProgress →
  Game_X g = Some x → Game_O g = Some o → ID x ≠ ID o →
  ∃ g', RemovePlayer (ID o) coin g = (Returned None, g')
    ∧ Game_O g' = head (Game_Queue g)
    ∧ Game_Queue g' = tail (Game_Queue g)
    ∧ Game_X g' = Some x
    ∧ Game_Board g' = Some blankBoard.
Proof.
  intros Hst Hx Ho Hne. unfold RemovePlayer. monad_unfold.
  rewrite Hx, Ho. cbn. rewrite bool_decide_false by done.
  rewrite bool_decide_true by done.
  unfold NextGame. monad_unfold.
  repeat first [rewrite advanceQueue_eq | rewrite Hst | rewrite Hx
               | rewrite decide_True by done | rewrite decide_False by done
               | progress cbn].
  rewrite app_nil_r.
  eexists. split; [reflexivity|]. by cbn.
Qed.

(** C6 (the code departs from the claim).  X has just won ([XWins] is
    stored until the delayed [NextGame] runs), [carol] waits in the queue
    and the winner [alice] leaves.  [RemovePlayer] empties seat X and calls
    [NextGame], which takes the [XWins] branch: it rotates seat O, the seat
    that was not vacated, and leaves seat X empty although the queue held a
    player. *)
Theorem RemovePlayer_after_win_leaves_seat_empty :
  Game_Status left_column_game = XWins
  ∧ Game_X left_column_game = Some alice
  ∧ Game_O left_column_game = Some bob
  ∧ Game_Queue left_column_game = [carol]
  ∧ ∃ g', RemovePlayer "alice" true left_column_game = (Returned None, g')
      ∧ Game_X g' = None
      ∧ Game_O g' = Some carol
      ∧ Game_Queue g' = [bob]
      ∧ Game_Board g' = Some blankBoard.
Proof.
  do 4 (split; [by vm_compute|]). eexists. split; [by vm_compute|]. by repeat split.
Qed.

(** ** Reset *)

(** [Clear] allocates a fresh game and drops its address: the game the
    caller's pointer designates is the one it designated before. *)
Lemma Clear_keeps_game (g : nat) (h : Heap) (this : Game) :
  h !! g = Some this →
  ∃ h', Clear g h = (Returned (), h') ∧ h' !! g = Some this.
Proof.
  intros Hg. unfold Clear, New_alloc. rewrite Hg.
  eexists. split; [reflexivity|]. by apply lookup_app_l_Some.
Qed.

(** C5 (the code departs from the claim).  The caller holds the game
    [started] (two seated players, status [InProgress]); after [Clear] the
    caller's game is still [started], not the just-constructed game. *)
Theorem Clear_leaves_game :
  started_heap !! 0%nat = Some started
  ∧ (∃ h', Clear 0 started_heap = (Returned (), h')
       ∧ h' !! 0%nat = Some started)
  ∧ Game_X started = Some alice
  ∧ Game_O started = Some bob
  ∧ Game_Status started = InProgress
  ∧ started ≠ New 5.
Proof.
  split; [reflexivity|]. split; [by eexists|]. by repeat split.
Qed.

(** * Further properties of the engine *)

(** ** Reading and writing cells *)

Lemma Board_get_set (b : Board) (y x : Z) (c p : Piece) :
  Board_get b y x = Some c → is_Some (Board_set b y x p).
Proof.
  unfold Board_get, Board_set, array3.get, array3.set.
  repeat case_decide; cbn; repeat case_decide; cbn; intros; simplify_eq; by eexists.
Qed.

Lemma array3_set_get {A} (a a' : array3.t A) (i j : Z) (v : A) :
  array3.set a i v = Some a' →
  array3.get a' j = if decide (j = i) then Some v else array3.get a j.
Proof.
  unfold array3.get, array3.set.
  repeat case_decide; intros; simplify_eq; cbn; try done; lia.
Qed.

Lemma Board_set_get (b b' : Board) (y x y' x' : Z) (p : Piece) :
  Board_set b y x p = Some b' →
  Board_get b' y' x' =
    if decide (y' = y ∧ x' = x) then Some p else Board_get b y' x'.
Proof.
  unfold Board_get, Board_set.
  destruct (array3.get b y) as [row|] eqn:Hrow; [|done]. cbn.
  destruct (array3.set row x p) as [row'|] eqn:Hrow'; [|done]. cbn.
  intros Hb'. rewrite (array3_set_get _ _ _ y' _ Hb').
  destruct (decide (y' = y)) as [->|Hy]; cbn.
  - rewrite (array3_set_get _ _ _ x' _ Hrow'), Hrow. cbn.
    repeat case_decide; try done; tauto.
  - rewrite decide_False by tauto. done.
Qed.

Lemma Board_set_total (b b' : Board) (y x : Z) (c p : Piece) :
  Board_get b y x = Some c → Board_set b y x p = Some b' →
  Board_total b' = Board_total b - int c + int p.
Proof.
  destruct b as [[a0 a1 a2] [b0 b1 b2] [c0 c1 c2]].
  unfold Board_get, Board_set, array3.get, array3.set, Board_total, line_sum.
  repeat case_decide; cbn; repeat case_decide; cbn; intros; simplify_eq; cbn; lia.
Qed.

(** The ways [PlacePiece] can end. *)
Lemma PlacePiece_inv (g : Game) (move : Move) :
  (∃ o, PlacePiece move g = (o, g) ∧ o ≠ Returned None
     ∧ ∀ e, o = Returned (Some e) → e = ErrInvalidMove)
  ∨ ((Game_Status g ∉ [XWins; OWins; NoBoard; Cats; InsufficientPlayers])
     ∧ Game_Move g ≠ "X" ∧ Game_Move g ≠ "O"
     ∧ PlacePiece move g = (Returned None, set_Status (status g) g))
  ∨ (∃ p b b',
       (Game_Status g ∉ [XWins; OWins; NoBoard; Cats; InsufficientPlayers])
       ∧ (Game_Move g = "X" ∨ Game_Move g = "O")
       ∧ turn_seat g = Some p ∧ ID p = PlayerID move
       ∧ Game_Board g = Some b
       ∧ Board_get b (YAxis move) (XAxis move) = Some blank
       ∧ Board_set b (YAxis move) (XAxis move) (mark_of (Game_Move g)) = Some b'
       ∧ PlacePiece move g =
           (Returned None,
            let g1 := set_Move (other_seat (Game_Move g)) (set_Board (Some b') g) in
            set_Status (status g1) g1)).
Proof.
  unfold PlacePiece. monad_unfold.
  case_decide as Hst; [left; eexists; split_and!; [done|done|by intros ? [= <-]]|].
  unfold turn_seat, mark_of, other_seat, Board_at, Board_assign. monad_unfold.
  destruct (decide (Game_Move g = "X")) as [HX|HX].
  - destruct (Game_X g) as [p|] eqn:Hp; [|left; eexists; split_and!; [done|done|by intros ? [= <-]]].
    case_decide as Hid; [left; eexists; split_and!; [done|done|by intros ? [= <-]]|].
    destruct (Game_Board g) as [b|] eqn:Hb; [|left; eexists; split_and!; [done|done|by intros ? [= <-]]].
    destruct (Board_get b _ _) as [c|] eqn:Hc; [|left; eexists; split_and!; [done|done|by intros ? [= <-]]].
    case_decide as Hocc; [left; eexists; split_and!; [done|done|by intros ? [= <-]]|].
    subst c.
    destruct (Board_get_set b _ _ _ xPiece Hc) as [b' Hb'].
    right; right. exists p, b, b'. split_and!; auto. by rewrite Hb, Hb'.
  - destruct (decide (Game_Move g = "O")) as [HO|HO]; [|right; left; done].
    destruct (Game_O g) as [p|] eqn:Hp; [|left; eexists; split_and!; [done|done|by intros ? [= <-]]].
    case_decide as Hid; [left; eexists; split_and!; [done|done|by intros ? [= <-]]|].
    destruct (Game_Board g) as [b|] eqn:Hb; [|left; eexists; split_and!; [done|done|by intros ? [= <-]]].
    destruct (Board_get b _ _) as [c|] eqn:Hc; [|left; eexists; split_and!; [done|done|by intros ? [= <-]]].
    case_decide as Hocc; [left; eexists; split_and!; [done|done|by intros ? [= <-]]|].
    subst c.
    destruct (Board_get_set b _ _ _ oPiece Hc) as [b' Hb'].
    right; right. exists p, b, b'. split_and!; auto. by rewrite Hb, Hb'.
Qed.

(** ** Case analysis over all boards *)

Lemma all_pieces_complete (p : Piece) : p ∈ all_pieces.
Proof. destruct p; unfold all_pieces; repeat constructor. Qed.

Lemma all_boards_complete (b : Board) : b ∈ all_boards.
Proof.
  destruct b as [[a b c] [d e f] [g h i]]. unfold all_boards.
  repeat (rewrite list_elem_of_bind; eexists; split; [|apply all_pieces_complete]).
  apply list_elem_of_singleton. reflexivity.
Qed.

(** A decidable property of boards holds of every board once it has been
    checked on the 19683 of them. *)
Lemma board_cases (P : Board → Prop) `{!∀ b, Decision (P b)} :
  bool_decide (Forall P all_boards) = true → ∀ b, P b.
Proof.
  intros Hall b. apply bool_decide_eq_true in Hall.
  eapply Forall_forall in Hall; [done|apply all_boards_complete].
Qed.

Ltac by_board_cases :=
  match goal with
  | |- ∀ b : Board, @?P b => apply (board_cases P); by vm_compute
  end.

Lemma status_board_full_or_open (b : Board) :
  (status_board b = Cats → Forall (λ c, c ≠ blank) (cells b))
  ∧ (status_board b = InProgress → is_Some (list_find (λ c, c = blank) (cells b))).
Proof. revert b. by_board_cases. Qed.

Lemma firstOpen_rows_find (b : Board) :
  firstOpen_rows 0 (array3.elems b) =
    (λ '(i, _), (Z.of_nat i `mod` 3, Z.of_nat i `div` 3))
      <$> list_find (λ c, c = blank) (cells b).
Proof. revert b. by_board_cases. Qed.

(** ** What the status evaluation answers *)

(** X1. [status] looks at the seats before anything else: it answers
    [InsufficientPlayers] exactly when seat X or seat O is empty, whatever
    the board holds, and [NoBoard] exactly when both seats are taken and
    the game has no board. *)
Theorem status_seats_first (g : Game) :
  (status g = InsufficientPlayers ↔ Game_X g = None ∨ Game_O g = None)
  ∧ (status g = NoBoard
     ↔ is_Some (Game_X g) ∧ is_Some (Game_O g) ∧ Game_Board g = None).
Proof.
  unfold status. case_decide as Hseat.
  - split; [done|]. split; [done|].
    intros (Hx & Ho & _). rewrite <- not_eq_None_Some in Hx, Ho. tauto.
  - assert (is_Some (Game_X g) ∧ is_Some (Game_O g)) as [Hx Ho]
      by (rewrite <- !not_eq_None_Some; tauto).
    destruct (Game_Board g) as [b|].
    + destruct (status_board_cases b) as [->|[->|[->| ->]]];
        (split; [split; [done|tauto]|split; [done|by intros (_ & _ & ?)]]).
    + split; [split; [done|tauto]|done].
Qed.

Lemma status_board_detects (b : Board) :
  Forall (λ i : nat, Forall (λ p : Piece,
    lines b !! i = Some [p; p; p] →
    Forall (λ l, line_sum l ≠ - line_sum [p; p; p]) (lines b) →
    -1 ≤ Board_total b ≤ 1 →
    status_board b = win_of p) [xPiece; oPiece]) [0; 3; 4; 5; 6; 7]%nat.
Proof. revert b. by_board_cases. Qed.

(** X2. With both seats taken, [status] reports the win of a complete line
    of one mark on every board that play can produce (the counts of the
    two marks differ by at most one, the other mark has no complete line),
    provided the line is the top row, a column or a diagonal (lines 0 and
    3 to 7 of [lines]); the middle and the bottom row are the two lines
    the row loop can miss. *)
Theorem status_detects_lines (g : Game) (b : Board) (p : Piece) (i : nat) :
  is_Some (Game_X g) → is_Some (Game_O g) → Game_Board g = Some b →
  p ≠ blank →
  lines b !! i = Some [p; p; p] → i ≠ 1%nat → i ≠ 2%nat →
  (∀ l, l ∈ lines b → line_sum l ≠ - line_sum [p; p; p]) →
  -1 ≤ Board_total b ≤ 1 →
  status g = win_of p.
Proof.
  intros Hx Ho Hb Hp Hline Hi1 Hi2 Hopp Hbal.
  rewrite (status_seated g b) by done.
  pose proof (status_board_detects b) as Hall.
  assert (i ∈ [0; 3; 4; 5; 6; 7]%nat) as Hi.
  { assert (i < 8)%nat as Hlt.
    { apply lookup_lt_Some in Hline. by destruct b as [[? ? ?] [? ? ?] [? ? ?]]. }
    do 8 (destruct i as [|i]; [first [done | repeat constructor]|]). lia. }
  assert (p ∈ [xPiece; oPiece]) as Hp' by (destruct p; [done|repeat constructor..]).
  eapply Forall_forall in Hall; [|exact Hi].
  eapply Forall_forall in Hall; [|exact Hp'].
  apply Hall; [done|by apply Forall_forall|done].
Qed.

Lemma status_detects_lines_witness : status left_column_game = XWins.
Proof.
  apply (status_detects_lines left_column_game left_column_board xPiece 3).
  - exists alice. by vm_compute.
  - exists bob. by vm_compute.
  - by vm_compute.
  - done.
  - reflexivity.
  - done.
  - done.
  - apply Forall_forall. by apply (bool_decide_unpack _).
  - by vm_compute.
Defined.

(** X3. With both seats taken, [status] answers [Cats] only for a board
    without a blank cell, and [InProgress] only for a board that still has
    a blank cell. *)
Theorem status_Cats_only_when_full (g : Game) (b : Board) :
  is_Some (Game_X g) → is_Some (Game_O g) → Game_Board g = Some b →
  (status g = Cats → ∀ c, c ∈ cells b → c ≠ blank)
  ∧ (status g = InProgress → blank ∈ cells b).
Proof.
  intros Hx Ho Hb. rewrite (status_seated g b) by done.
  destruct (status_board_full_or_open b) as [Hfull Hopen]. split.
  - intros Hs. by apply Forall_forall, Hfull.
  - intros Hs. destruct (Hopen Hs) as [[i c] Hfind].
    apply list_find_Some in Hfind as (Hi & -> & _).
    by eapply list_elem_of_lookup_2.
Qed.

Lemma status_Cats_only_when_full_witness :
  (status cats_game = Cats → ∀ c, c ∈ cells cats_board → c ≠ blank)
  ∧ (status cats_game = InProgress → blank ∈ cells cats_board).
Proof.
  apply (status_Cats_only_when_full cats_game cats_board);
    [by eexists|by eexists|reflexivity].
Defined.

(** ** Marks alternate in every reachable state *)

(** What each operation does to the board and the turn marker. *)
Lemma AddPlayer_board_move (p : Player) (g : Game) :
  Game_Board (AddPlayer p g).2 = Game_Board g
  ∧ (Game_Move (AddPlayer p g).2 = Game_Move g
     ∨ (Game_X g = None ∧ Game_O g = None)).
Proof.
  unfold AddPlayer. monad_unfold.
  repeat first [case_decide | case_match | progress cbn]; auto.
Qed.

Lemma UpdatePlayer_board_move (p : Player) (g : Game) :
  Game_Board (UpdatePlayer p g).2 = Game_Board g
  ∧ Game_Move (UpdatePlayer p g).2 = Game_Move g.
Proof.
  unfold UpdatePlayer. monad_unfold.
  repeat first [case_decide | case_match | progress cbn]; auto.
Qed.

Lemma NextGame_board_move (coin : bool) (g : Game) :
  Game_Board (NextGame coin g).2 = Some blankBoard
  ∨ (Game_Board (NextGame coin g).2 = Game_Board g
     ∧ Game_Move (NextGame coin g).2 = Game_Move g).
Proof.
  unfold NextGame. monad_unfold. destruct coin; run; auto.
Qed.

Lemma RemovePlayer_board_move (id : string) (coin : bool) (g : Game) :
  Game_Board (RemovePlayer id coin g).2 = Some blankBoard
  ∨ (Game_Board (RemovePlayer id coin g).2 = Game_Board g
     ∧ Game_Move (RemovePlayer id coin g).2 = Game_Move g).
Proof.
  unfold RemovePlayer. monad_unfold.
  destruct (seat_is (Game_X g) id).
  { left. by destruct (NextGame_board_move coin
      (set_Board (Some blankBoard) (set_X None g))) as [->|[-> _]]. }
  destruct (seat_is (Game_O g) id).
  { left. by destruct (NextGame_board_move coin
      (set_Board (Some blankBoard) (set_O None g))) as [->|[-> _]]. }
  destruct (list_find _ _) as [[idx q]|]; cbn; auto.
Qed.

Lemma Balanced_blank (g : Game) : Game_Board g = Some blankBoard → Balanced g.
Proof. intros Hb b Hb'. rewrite Hb in Hb'. injection Hb' as <-. by left. Qed.

Lemma Balanced_frame (g g' : Game) :
  Game_Board g' = Game_Board g → Game_Move g' = Game_Move g →
  Balanced g → Balanced g'.
Proof. intros Hb Hm Hbal b. rewrite Hb, Hm. apply Hbal. Qed.

Lemma PlacePiece_Balanced (move : Move) (g : Game) :
  Balanced g → Balanced (PlacePiece move g).2.
Proof.
  intros Hbal.
  destruct (PlacePiece_inv g move)
    as [(o & -> & _ & _) | [(_ & _ & _ & ->) | (p & b & b' & _ & Hm & _ & _ & Hb & Hc & Hb' & ->)]];
    [done|by apply (Balanced_frame g)|].
  intros b2 [= <-]. rewrite (Board_set_total b b' _ _ _ _ Hc Hb'). cbn.
  specialize (Hbal b Hb). unfold mark_of, other_seat.
  destruct Hm as [Hm|Hm]; rewrite Hm in *;
    repeat first [rewrite decide_True by done | rewrite decide_False by done]; cbn;
    intuition (try discriminate; lia).
Qed.

Lemma step_Balanced (g : Game) (op : Op) :
  Inv g → Balanced g → Balanced (step g op).
Proof.
  intros HI Hbal. unfold step. destruct op as [p|p|id coin|move|coin]; cbn [run_op].
  - destruct (AddPlayer_board_move p g) as [Hb [Hm|[Hx Ho]]].
    + by apply (Balanced_frame g).
    + apply Balanced_blank. rewrite Hb. apply HI. by left.
  - destruct (UpdatePlayer_board_move p g) as [Hb Hm]. by apply (Balanced_frame g).
  - destruct (RemovePlayer_board_move id coin g) as [Hb|[Hb Hm]];
      [by apply Balanced_blank|by apply (Balanced_frame g)].
  - by apply PlacePiece_Balanced.
  - destruct (NextGame_board_move coin g) as [Hb|[Hb Hm]];
      [by apply Balanced_blank|by apply (Balanced_frame g)].
Qed.

Lemma exec_Balanced (ops : list Op) (timeout : Z) : Balanced (exec ops (New timeout)).
Proof.
  induction ops as [|op ops IH] using rev_ind.
  - by apply Balanced_blank.
  - rewrite exec_snoc. apply step_Balanced; [apply exec_Inv|done].
Qed.

(** X4. In every state reached from [New] by the exported operations the
    game has a board on which the numbers of X and O marks differ by at
    most one; when X has one mark more it is O's turn, and when O has one
    mark more it is X's turn. *)
Theorem exec_marks_alternate (ops : list Op) (timeout : Z) :
  let g := exec ops (New timeout) in
  ∃ b, Game_Board g = Some b
    ∧ -1 ≤ Board_total b ≤ 1
    ∧ (Board_total b = -1 → Game_Move g = "O")
    ∧ (Board_total b = 1 → Game_Move g = "X").
Proof.
  intros g. destruct (Inv_board _ (exec_Inv ops timeout)) as [b Hb].
  exists b. split; [done|].
  destruct (exec_Balanced ops timeout b Hb) as [?|[[? ?]|[? ?]]]; split_and!; try lia; done.
Qed.

(** X5. In every state reached from [New] by the exported operations the
    stored [Status] is what [status] computes from the seats and the
    board, the board is present (the status is never [NoBoard]), and while
    a seat is empty the status is [InsufficientPlayers] and the board is
    blank. *)
Theorem exec_status_current (ops : list Op) (timeout : Z) :
  let g := exec ops (New timeout) in
  Game_Status g = status g
  ∧ is_Some (Game_Board g)
  ∧ Game_Status g ≠ NoBoard
  ∧ (Game_X g = None ∨ Game_O g = None →
     Game_Status g = InsufficientPlayers ∧ Game_Board g = Some blankBoard).
Proof.
  intros g. destruct (exec_Inv ops timeout) as [Hs Hb Hbl Hm]. fold g in Hs, Hb, Hbl.
  split_and!; [done|done| |].
  - destruct (Inv_status_cases g) as [H|[H|[H|[H|H]]]]; [by split|rewrite H; done..].
  - intros Hseat. split; [|by apply Hbl]. rewrite Hs. unfold status. by rewrite decide_True.
Qed.

(** ** The accepted move *)

(** The accepted move, for an arbitrary [Game] record. *)
Lemma PlacePiece_accepted (g : Game) (move : Move) (p : Player) (b : Board) :
  Game_Status g ∉ [XWins; OWins; NoBoard; Cats; InsufficientPlayers] →
  Game_Move g = "X" ∨ Game_Move g = "O" →
  turn_seat g = Some p → ID p = PlayerID move →
  Game_Board g = Some b →
  Board_get b (YAxis move) (XAxis move) = Some blank →
  ∃ b', Board_set b (YAxis move) (XAxis move) (mark_of (Game_Move g)) = Some b'
    ∧ PlacePiece move g =
        (Returned None,
         let g1 := set_Move (other_seat (Game_Move g)) (set_Board (Some b') g) in
         set_Status (status g1) g1).
Proof.
  intros Hst Hm Hp Hid Hb Hc.
  destruct (Board_get_set b _ _ _ (mark_of (Game_Move g)) Hc) as [b' Hb'].
  exists b'. split; [done|].
  unfold PlacePiece, Board_at, Board_assign. monad_unfold.
  rewrite decide_False by done.
  unfold turn_seat, mark_of, other_seat in *.
  destruct Hm as [Hm|Hm]; rewrite Hm in *;
    repeat first [rewrite decide_True in * by done | rewrite decide_False in * by done];
    repeat first [ rewrite Hp | rewrite Hb | rewrite Hc | rewrite Hb'
                 | rewrite decide_False by (by intros ?) | progress cbn ]; done.
Qed.

(** X6. In a game in progress, a move by the player whose turn it is onto a
    blank cell of the board is accepted: [PlacePiece] returns no error,
    writes the mover's mark (X for seat X, O for seat O) into that cell
    and into no other, hands the turn to the other seat, leaves seats and
    queue alone and stores the freshly evaluated status. *)
Theorem PlacePiece_accepts (g : Game) (move : Move) (b : Board) :
  Coherent g →
  Game_Status g = InProgress →
  ID <$> turn_seat g = Some (PlayerID move) →
  Game_Board g = Some b →
  Board_get b (YAxis move) (XAxis move) = Some blank →
  ∃ b' g',
    PlacePiece move g = (Returned None, g')
    ∧ Game_Board g' = Some b'
    ∧ (∀ y x, Board_get b' y x =
         if decide (y = YAxis move ∧ x = XAxis move)
         then Some (mark_of (Game_Move g)) else Board_get b y x)
    ∧ Game_Move g' = other_seat (Game_Move g)
    ∧ Game_X g' = Game_X g ∧ Game_O g' = Game_O g ∧ Game_Queue g' = Game_Queue g
    ∧ Game_Status g' = status g'.
Proof.
  intros HC Hst Hid Hb Hc.
  assert (Game_Status g ∉ [XWins; OWins; NoBoard; Cats; InsufficientPlayers]) as Hacc
    by (rewrite Hst; apply (bool_decide_unpack _); vm_compute; exact I).
  destruct (turn_seat g) as [p|] eqn:Hp; [|done].
  injection Hid as Hid.
  destruct (PlacePiece_accepted g move p b Hacc (Coherent_turn g HC Hst) Hp Hid Hb Hc)
    as (b' & Hb' & ->).
  exists b'. eexists. split; [reflexivity|]. cbn. split_and!; try done.
  intros y x. by apply Board_set_get.
Qed.

Lemma PlacePiece_accepts_witness :
  ∃ b' g', PlacePiece (mkMove 0 0 "alice") started = (Returned None, g')
    ∧ Game_Board g' = Some b'
    ∧ Board_get b' 0 0 = Some xPiece
    ∧ Game_Move g' = "O".
Proof.
  destruct (PlacePiece_accepts started (mkMove 0 0 "alice") blankBoard)
    as (b' & g' & Hrun & Hb' & Hget & Hm & _).
  - split; [reflexivity|by left].
  - reflexivity.
  - reflexivity.
  - reflexivity.
  - reflexivity.
  - exists b', g'. split_and!; [done|done|by rewrite Hget|done].
Defined.

(** X7. Whenever [PlacePiece] does not return [nil] (it returns an error or
    panics) the game is exactly as it was before the call, and the only
    error it ever returns is [ErrInvalidMove]. *)
Theorem PlacePiece_failure_atomic (g g' : Game) (move : Move) (r : Outcome (option error)) :
  PlacePiece move g = (r, g') → r ≠ Returned None →
  g' = g ∧ ∀ e, r = Returned (Some e) → e = ErrInvalidMove.
Proof.
  intros Hrun Hr.
  destruct (PlacePiece_inv g move)
    as [(o & Ho & _ & He) | [(_ & _ & _ & Ho) | (p & b0 & b' & _ & _ & _ & _ & _ & _ & _ & Ho)]];
    rewrite Ho in Hrun; by simplify_eq.
Qed.

Lemma PlacePiece_failure_atomic_witness :
  first_move_game = first_move_game
  ∧ ∀ e, Returned (Some ErrInvalidMove) = Returned (Some e) → e = ErrInvalidMove.
Proof.
  apply (PlacePiece_failure_atomic first_move_game first_move_game (mkMove 0 0 "bob")
           (Returned (Some ErrInvalidMove))).
  - by vm_compute.
  - done.
Defined.

(** X8. [PlacePiece] never erases or overwrites a mark: whatever its
    outcome, every non-blank cell of the board keeps its mark, and no cell
    other than the one addressed by the move changes. *)
Theorem PlacePiece_keeps_marks (g : Game) (move : Move) (b : Board) :
  Game_Board g = Some b →
  ∃ b', Game_Board (PlacePiece move g).2 = Some b'
    ∧ (∀ y x c, Board_get b y x = Some c → c ≠ blank → Board_get b' y x = Some c)
    ∧ (∀ y x, ¬ (y = YAxis move ∧ x = XAxis move) → Board_get b' y x = Board_get b y x).
Proof.
  intros Hb.
  destruct (PlacePiece_inv g move)
    as [(o & -> & _ & _) | [(_ & _ & _ & ->) | (p & b0 & b' & _ & Hm & _ & _ & Hb0 & Hc & Hb' & ->)]].
  - exists b. by split_and!.
  - exists b. by split_and!.
  - rewrite Hb in Hb0. injection Hb0 as <-. exists b'. cbn. split_and!; [done| |].
    + intros y x c Hget Hocc. rewrite (Board_set_get _ _ _ _ y x _ Hb').
      case_decide as Heq; [|done]. destruct Heq as [-> ->]. congruence.
    + intros y x Hne. rewrite (Board_set_get _ _ _ _ y x _ Hb'). by rewrite decide_False.
Qed.

Lemma PlacePiece_keeps_marks_witness :
  ∃ b', Game_Board (PlacePiece (mkMove 1 1 "bob") first_move_game).2 = Some b'
    ∧ (∀ y x c, Board_get first_move_board y x = Some c → c ≠ blank →
         Board_get b' y x = Some c)
    ∧ (∀ y x, ¬ (y = 1 ∧ x = 1) → Board_get b' y x = Board_get first_move_board y x).
Proof.
  apply (PlacePiece_keeps_marks first_move_game (mkMove 1 1 "bob") first_move_board).
  by vm_compute.
Defined.

(** ** Turn order, panics, and the scan for an open cell *)

Lemma accepting_InProgress :
  InProgress ∉ [XWins; OWins; NoBoard; Cats; InsufficientPlayers].
Proof. apply (bool_decide_unpack _). vm_compute. exact I. Qed.

Lemma Board_get_in_range (b : Board) (y x : Z) :
  0 ≤ x ≤ 2 → 0 ≤ y ≤ 2 → is_Some (Board_get b y x).
Proof.
  intros Hx Hy. unfold Board_get, array3.get.
  repeat case_decide; cbn; repeat case_decide; try by eexists. all: lia.
Qed.

(** X9. A player cannot move twice in a row: after an accepted move, any
    further move submitted under the same player id is refused with
    [ErrInvalidMove] and changes nothing, wherever it aims. *)
Theorem PlacePiece_no_double_move (g g' : Game) (move move' : Move) :
  Coherent g → NoDup (ids g) →
  PlacePiece move g = (Returned None, g') →
  PlayerID move' = PlayerID move →
  PlacePiece move' g' = (Returned (Some ErrInvalidMove), g').
Proof.
  intros HC Hnd Hrun Hsame.
  destruct (PlacePiece_inv g move)
    as [(o & Ho & Hne & _) | [(Hacc & HX & HO & _)
       | (p & b & b' & Hacc & Hm & Hp & Hid & _ & _ & _ & Hg')]].
  - rewrite Ho in Hrun. by simplify_eq.
  - destruct (Coherent_accepting g HC Hacc) as (Hst & _).
    destruct (Coherent_turn g HC Hst); done.
  - rewrite Hg' in Hrun. injection Hrun as <-.
    destruct (Coherent_accepting g HC Hacc) as (_ & [x Hx] & [o Ho] & _).
    destruct (NoDup_ids_spec g Hnd) as (_ & _ & _ & Hxo).
    specialize (Hxo x o Hx Ho).
    apply PlacePiece_rejected. cbn.
    match goal with |- ?s ∈ _ ∨ _ => destruct (decide (s ∈ [XWins; OWins; NoBoard; Cats; InsufficientPlayers])) as [?|_] end;
      [by left|right; left].
    unfold turn_seat, other_seat in *. cbn.
    destruct Hm as [Hm|Hm]; rewrite Hm in *;
      repeat first [rewrite decide_True in * by done | rewrite decide_False in * by done].
    + exists o. split; [done|]. congruence.
    + exists x. split; [done|]. congruence.
Qed.

Lemma PlacePiece_no_double_move_witness :
  PlacePiece (mkMove 1 1 "alice") first_move_game
  = (Returned (Some ErrInvalidMove), first_move_game).
Proof.
  apply (PlacePiece_no_double_move started first_move_game
           (mkMove 0 0 "alice") (mkMove 1 1 "alice")).
  - split; [reflexivity|by left].
  - apply (bool_decide_unpack _). by vm_compute.
  - by vm_compute.
  - reflexivity.
Defined.

(** X10. [PlacePiece] panics only in one situation: the game is in progress,
    the move comes from the player whose turn it is, and its coordinates
    lie outside the board.  With coordinates inside the board it always
    returns. *)
Theorem PlacePiece_panics_only_out_of_range (g : Game) (move : Move) (pn : GoPanic) :
  Coherent g →
  (PlacePiece move g).1 = Panicked pn →
  Game_Status g = InProgress
  ∧ ID <$> turn_seat g = Some (PlayerID move)
  ∧ ¬ (0 ≤ XAxis move ≤ 2 ∧ 0 ≤ YAxis move ≤ 2).
Proof.
  intros HC Hpanic.
  destruct (decide (Game_Status g ∈ [XWins; OWins; NoBoard; Cats; InsufficientPlayers]))
    as [Hrej|Hacc].
  { rewrite PlacePiece_rejected in Hpanic by (by left). done. }
  destruct (Coherent_accepting g HC Hacc) as (Hst & _ & _ & [b Hb] & [p Hp]).
  destruct (decide (ID p = PlayerID move)) as [Hid|Hid].
  2:{ rewrite PlacePiece_rejected in Hpanic by (right; left; by exists p). done. }
  split_and!; [done|by rewrite Hp; cbn; rewrite Hid|].
  intros [Hx Hy]. destruct (Board_get_in_range b _ _ Hx Hy) as [c Hc].
  destruct (decide (c = blank)) as [->|Hocc].
  - destruct (PlacePiece_accepted g move p b Hacc (Coherent_turn g HC Hst) Hp Hid Hb Hc)
      as (b' & _ & Hrun). by rewrite Hrun in Hpanic.
  - rewrite PlacePiece_rejected in Hpanic by (right; right; by exists p, b, c). done.
Qed.

Lemma PlacePiece_panics_only_out_of_range_witness :
  Game_Status started = InProgress
  ∧ ID <$> turn_seat started = Some "alice"
  ∧ ¬ (0 ≤ 3 ≤ 2 ∧ 0 ≤ 0 ≤ 2).
Proof.
  apply (PlacePiece_panics_only_out_of_range started (mkMove 0 3 "alice") IndexOutOfRange).
  - split; [reflexivity|by left].
  - by vm_compute.
Defined.

(** X11. [playerTurnId] reads the game without changing it and never
    dereferences an empty seat: in a game in progress it answers the id of
    the occupant of the seat named by the turn marker (which is then
    occupied), and in any other status it answers the empty id. *)
Theorem playerTurnId_spec (g : Game) :
  Coherent g →
  playerTurnId g =
    (Returned (if decide (Game_Status g = InProgress) then ID <$> turn_seat g else None), g)
  ∧ (Game_Status g = InProgress → is_Some (turn_seat g)).
Proof.
  intros HC. unfold playerTurnId. monad_unfold.
  destruct (decide (Game_Status g = InProgress)) as [Hst|Hst].
  - assert (Game_Status g ∉ [XWins; OWins; NoBoard; Cats; InsufficientPlayers]) as Hacc
      by (rewrite Hst; apply accepting_InProgress).
    destruct (Coherent_accepting g HC Hacc) as (_ & _ & _ & _ & [p Hp]).
    split; [|by eexists]. rewrite decide_False by (by intros ?).
    unfold turn_seat in *. repeat case_decide; try done; by rewrite Hp.
  - split; [|done]. by rewrite decide_True.
Qed.

Lemma playerTurnId_spec_witness :
  playerTurnId first_move_game = (Returned (Some "bob"), first_move_game)
  ∧ (Game_Status first_move_game = InProgress → is_Some (turn_seat first_move_game)).
Proof.
  apply (playerTurnId_spec first_move_game). split; [reflexivity|by right].
Defined.

Lemma firstOpen_rows_first (b : Board) : firstOpen_first b.
Proof. revert b. by_board_cases. Qed.

Lemma in_range_elem (i : Z) : 0 ≤ i ≤ 2 → i ∈ [0; 1; 2].
Proof.
  intros H. assert (i = 0 ∨ i = 1 ∨ i = 2) as [->|[->| ->]] by lia; repeat constructor.
Qed.

Lemma Board_get_Some_in_range (b : Board) (y x : Z) (c : Piece) :
  Board_get b y x = Some c → 0 ≤ x ≤ 2 ∧ 0 ≤ y ≤ 2.
Proof.
  intros Hc. destruct (decide (0 ≤ x ≤ 2 ∧ 0 ≤ y ≤ 2)) as [?|Hout]; [done|].
  by rewrite Board_get_out_of_range in Hc.
Qed.

(** X12. [firstOpenPositionsOnBoard] leaves the game unchanged and answers
    the first blank cell of the board in reading order (rows from the top,
    cells from the left): the cell it names is blank and no blank cell
    comes before it.  It answers (-1, -1) with an error exactly when the
    board has no blank cell. *)
Theorem firstOpenPositionsOnBoard_spec (g : Game) (b : Board) :
  Game_Board g = Some b →
  ∃ x y err,
    firstOpenPositionsOnBoard g = (Returned (x, y, err), g)
    ∧ match err with
      | None =>
          Board_get b y x = Some blank
          ∧ ∀ y' x', Board_get b y' x' = Some blank → y < y' ∨ (y = y' ∧ x ≤ x')
      | Some _ =>
          x = -1 ∧ y = -1 ∧ ∀ y' x', Board_get b y' x' ≠ Some blank
      end.
Proof.
  intros Hb. unfold firstOpenPositionsOnBoard. monad_unfold. rewrite Hb.
  pose proof (firstOpen_rows_first b) as Hfirst. unfold firstOpen_first in Hfirst.
  destruct (firstOpen_rows 0 (array3.elems b)) as [[x y]|].
  - exists x, y, None. split; [done|]. destruct Hfirst as [Hblank Hall].
    split; [done|]. intros y' x' Hget.
    destruct (Board_get_Some_in_range _ _ _ _ Hget) as [Hx Hy].
    rewrite Forall_forall in Hall. specialize (Hall y' (in_range_elem _ Hy)).
    rewrite Forall_forall in Hall. by apply (Hall x' (in_range_elem _ Hx)).
  - eexists _, _, _. split; [done|]. split_and!; [done|done|].
    intros y' x' Hget.
    destruct (Board_get_Some_in_range _ _ _ _ Hget) as [Hx Hy].
    rewrite Forall_forall in Hfirst. specialize (Hfirst y' (in_range_elem _ Hy)).
    rewrite Forall_forall in Hfirst. by apply (Hfirst x' (in_range_elem _ Hx)).
Qed.

Lemma firstOpenPositionsOnBoard_spec_witness :
  ∃ x y err,
    firstOpenPositionsOnBoard first_move_game = (Returned (x, y, err), first_move_game)
    ∧ match err with
      | None =>
          Board_get first_move_board y x = Some blank
          ∧ ∀ y' x', Board_get first_move_board y' x' = Some blank →
              y < y' ∨ (y = y' ∧ x ≤ x')
      | Some _ =>
          x = -1 ∧ y = -1 ∧ ∀ y' x', Board_get first_move_board y' x' ≠ Some blank
      end.
Proof.
  apply (firstOpenPositionsOnBoard_spec first_move_game first_move_board). by vm_compute.
Defined.

(** ** The automatic move *)

Lemma playerTurnId_InProgress (g : Game) (p : Player) :
  Game_Status g = InProgress → Game_Move g = "X" ∨ Game_Move g = "O" →
  turn_seat g = Some p →
  playerTurnId g = (Returned (Some (ID p)), g).
Proof.
  intros Hst Hm Hp. unfold playerTurnId. monad_unfold.
  rewrite decide_False by (intros Hn; by apply Hn).
  unfold turn_seat in Hp.
  destruct Hm as [Hm|Hm]; rewrite Hm in *;
    repeat first [rewrite decide_True in * by done | rewrite decide_False in * by done];
    by rewrite Hp.
Qed.

Lemma setTimeout_timeout_idle (g : Game) :
  Game_Status g ≠ InProgress → setTimeout_timeout g = (Returned (), g).
Proof.
  intros Hst. unfold setTimeout_timeout, playerTurnId. monad_unfold.
  by rewrite decide_True.
Qed.

Lemma setTimeout_timeout_moves (g : Game) :
  Coherent g → Game_Status g = InProgress →
  ∃ x y b b' g',
    Game_Board g = Some b
    ∧ firstOpenPositionsOnBoard g = (Returned (x, y, None), g)
    ∧ Board_get b y x = Some blank
    ∧ Board_set b y x (mark_of (Game_Move g)) = Some b'
    ∧ setTimeout_timeout g = (Returned (), g')
    ∧ Game_Board g' = Some b'
    ∧ Game_Move g' = other_seat (Game_Move g)
    ∧ Game_X g' = Game_X g ∧ Game_O g' = Game_O g ∧ Game_Queue g' = Game_Queue g
    ∧ Game_Status g' = status g'.
Proof.
  intros HC Hst.
  assert (Game_Status g ∉ [XWins; OWins; NoBoard; Cats; InsufficientPlayers]) as Hacc
    by (rewrite Hst; apply accepting_InProgress).
  destruct (Coherent_accepting g HC Hacc) as (_ & Hx & Ho & [b Hb] & [p Hp]).
  pose proof (Coherent_turn g HC Hst) as Hm.
  assert (status_board b = InProgress) as Hsb.
  { rewrite <- (status_seated g b) by done. by rewrite <- (Coherent_status g HC). }
  destruct (proj2 (status_board_full_or_open b) Hsb) as [[i c] Hfind].
  pose proof (firstOpen_rows_first b) as Hfirst. unfold firstOpen_first in Hfirst.
  pose proof (firstOpen_rows_find b) as Hrows. rewrite Hfind in Hrows.
  change (firstOpen_rows 0 (array3.elems b)
          = Some (Z.of_nat i `mod` 3, Z.of_nat i `div` 3)) in Hrows.
  rewrite Hrows in Hfirst. destruct Hfirst as [Hblank _].
  set (x := Z.of_nat i `mod` 3) in *. set (y := Z.of_nat i `div` 3) in *.
  set (move := {| YAxis := y; XAxis := x; PlayerID := ID p |}).
  destruct (PlacePiece_accepted g move p b Hacc Hm Hp eq_refl Hb Hblank)
    as (b' & Hb' & Hplace).
  assert (firstOpenPositionsOnBoard g = (Returned (x, y, None), g)) as Hopen.
  { unfold firstOpenPositionsOnBoard. monad_unfold. by rewrite Hb, Hrows. }
  exists x, y, b, b'. eexists. split_and!; [done|done|done|done| |..].
  - unfold setTimeout_timeout. monad_unfold.
    rewrite (playerTurnId_InProgress g p Hst Hm Hp), Hopen.
    fold move. rewrite Hplace. reflexivity.
  - done.
  - done.
  - done.
  - done.
  - done.
  - done.
Qed.

(** X13. When the move timer fires, the watchdog does nothing unless a game
    is in progress; in a game in progress it plays for the player whose
    turn it is: the mover's mark goes onto the first blank cell in reading
    order, the turn passes to the other seat, seats and queue stay, and
    the stored status is re-evaluated.  It never panics. *)
Theorem setTimeout_timeout_spec (g : Game) :
  Coherent g →
  (Game_Status g ≠ InProgress → setTimeout_timeout g = (Returned (), g))
  ∧ (Game_Status g = InProgress →
     ∃ x y b b' g',
       Game_Board g = Some b
       ∧ firstOpenPositionsOnBoard g = (Returned (x, y, None), g)
       ∧ Board_get b y x = Some blank
       ∧ Board_set b y x (mark_of (Game_Move g)) = Some b'
       ∧ setTimeout_timeout g = (Returned (), g')
       ∧ Game_Board g' = Some b'
       ∧ Game_Move g' = other_seat (Game_Move g)
       ∧ Game_X g' = Game_X g ∧ Game_O g' = Game_O g ∧ Game_Queue g' = Game_Queue g
       ∧ Game_Status g' = status g').
Proof.
  intros HC. split; [apply setTimeout_timeout_idle|by apply setTimeout_timeout_moves].
Qed.

Lemma setTimeout_timeout_spec_witness :
  ∃ g', setTimeout_timeout first_move_game = (Returned (), g')
    ∧ Game_Move g' = "X".
Proof.
  destruct (setTimeout_timeout_spec first_move_game) as [_ Hmoves].
  - split; [reflexivity|by right].
  - destruct (Hmoves eq_refl) as (x & y & b & b' & g' & _ & _ & _ & _ & Hrun & _ & Hm & _).
    by exists g'.
Defined.

(** ** Adding and updating players *)

(** Membership of an id among the seats and the queue, as the code tests it. *)
Lemma ids_elem_of (g : Game) (id : string) :
  id ∈ ids g ↔
    seat_is (Game_X g) id = true ∨ seat_is (Game_O g) id = true
    ∨ is_Some (list_find (λ q, ID q = id) (Game_Queue g)).
Proof.
  unfold ids, players. rewrite !fmap_app, !elem_of_app, !seat_is_true.
  assert (∀ s : option Player, id ∈ ID <$> option_list s ↔ ∃ p, s = Some p ∧ ID p = id) as Hs.
  { intros [s|]; cbn.
    - rewrite list_elem_of_singleton. split; [intros ->; by eexists|by intros (? & [= <-] & ?)].
    - split; [by intros ?%elem_of_nil|by intros (? & ? & ?)]. }
  rewrite !Hs.
  assert (id ∈ ID <$> Game_Queue g ↔ is_Some (list_find (λ q, ID q = id) (Game_Queue g))) as ->; [|done].
  rewrite list_elem_of_fmap. split.
  - intros (q & -> & Hin). by eapply list_find_elem_of.
  - intros [[i q] (Hq & Hid & _)%list_find_Some]. exists q. split; [done|].
    by eapply list_elem_of_lookup_2.
Qed.

Lemma AddPlayer_known (p : Player) (g : Game) :
  ID p ∈ ids g → ∃ e, AddPlayer p g = (Returned (Some e), g).
Proof.
  rewrite ids_elem_of. intros Hin. unfold AddPlayer. monad_unfold.
  case_decide as Hq; [by eexists|].
  destruct Hin as [Hx|[Ho|Hin]].
  - rewrite Hx. by eexists.
  - rewrite Ho, orb_true_r. by eexists.
  - exfalso. apply Hq. destruct Hin as [[i q] Hfind]. 
    apply list_find_Some in Hfind as (Hq' & Hid & _).
    eapply list_find_elem_of; [by eapply list_elem_of_lookup_2|done].
Qed.

Lemma AddPlayer_fresh (p : Player) (g : Game) :
  ID p ∉ ids g → AddPlayer p g = (Returned None, seated p g).
Proof.
  rewrite ids_elem_of. intros Hout. unfold AddPlayer, seated. monad_unfold.
  rewrite decide_False.
  2:{ intros [[i q] (Hq & Hid & _)%list_find_Some]. apply Hout. right; right.
      eapply list_find_elem_of; [by eapply list_elem_of_lookup_2|done]. }
  destruct (seat_is (Game_X g) (ID p)) eqn:Hx; [tauto|].
  destruct (seat_is (Game_O g) (ID p)) eqn:Ho; [tauto|]. cbn.
  destruct (Game_X g), (Game_O g);
    repeat first [rewrite decide_True by done | rewrite decide_False by done]; done.
Qed.

(** X14. [AddPlayer] always returns; it returns an error exactly when the
    id of the new player is already held by a seated or queued player, and
    then the game is unchanged; otherwise the ids of the table are the old
    ones plus the new one. *)
Theorem AddPlayer_rejects_known_id (p : Player) (g : Game) :
  ∃ r g', AddPlayer p g = (Returned r, g')
    ∧ (is_Some r ↔ ID p ∈ ids g)
    ∧ (is_Some r → g' = g)
    ∧ (r = None → ids g' ≡ₚ ID p :: ids g).
Proof.
  destruct (decide (ID p ∈ ids g)) as [Hin|Hout].
  - destruct (AddPlayer_known p g Hin) as [e He]. exists (Some e), g.
    split; [done|]. split; [by split|]. split; [done|]. by intros [=].
  - exists None, (seated p g). split; [by apply AddPlayer_fresh|].
    split; [split; [by intros [? [=]]|done]|]. split; [by intros [? [=]]|].
    intros _. clear Hout. unfold seated, ids, players.
    destruct g as [b q [x|] [o|] m s t]; cbn; rewrite ?fmap_app; cbn; solve_Permutation.
Qed.

(** X15. A player with a new id is seated by [AddPlayer] as follows: at an
    empty table in seat X, with the turn marker set to X; at a table with
    one empty seat in that seat, and the stored status becomes
    [InProgress]; at a full table at the end of the queue.  Nothing else
    changes. *)
Theorem AddPlayer_seating (p : Player) (g : Game) :
  ID p ∉ ids g →
  AddPlayer p g =
    (Returned None,
     match Game_X g, Game_O g with
     | None, None => set_Move "X" (set_X (Some p) g)
     | None, Some _ => set_Status InProgress (set_X (Some p) g)
     | Some _, None => set_Status InProgress (set_O (Some p) g)
     | Some _, Some _ => set_Queue (Game_Queue g ++ [p]) g
     end).
Proof. apply AddPlayer_fresh. Qed.

Lemma AddPlayer_seating_witness :
  AddPlayer carol started
  = (Returned None, set_Queue [carol] started).
Proof.
  apply (AddPlayer_seating carol started).
  apply (bool_decide_unpack _). by vm_compute.
Defined.

(** [UpdatePlayer] *)

Lemma UpdatePlayer_unknown (p : Player) (g : Game) :
  ID p ∉ ids g → UpdatePlayer p g = (Returned (Some ErrPlayerNotFound), g).
Proof.
  rewrite ids_elem_of. intros Hout. unfold UpdatePlayer. monad_unfold.
  destruct (seat_is (Game_X g) (ID p)); [tauto|].
  destruct (seat_is (Game_O g) (ID p)); [tauto|].
  destruct (list_find _ _) as [[i q]|]; [|done]. exfalso. apply Hout. right; right. by eexists.
Qed.

Lemma replace_record_absent (p : Player) (l : list Player) :
  ID p ∉ ID <$> l → replace_record p <$> l = l.
Proof.
  induction l as [|q l IH]; [done|]. cbn. rewrite not_elem_of_cons. intros [Hne Hout].
  unfold replace_record at 1. rewrite decide_False by done. by rewrite IH.
Qed.

Lemma replace_record_insert (p y : Player) (l : list Player) (i : nat) :
  l !! i = Some y → ID y = ID p → NoDup (ID <$> l) →
  replace_record p <$> l = <[i := p]> l.
Proof.
  revert i. induction l as [|q l IH]; intros i Hi Hid Hnd; [done|].
  cbn in Hnd. apply NoDup_cons in Hnd as [Hq Hnd].
  destruct i as [|i]; cbn in *.
  - injection Hi as ->. unfold replace_record at 1. rewrite decide_True by done.
    rewrite replace_record_absent; [done|]. by rewrite <- Hid.
  - unfold replace_record at 1. rewrite decide_False.
    + by rewrite (IH i).
    + intros Heq. apply Hq. rewrite Heq, <- Hid.
      apply list_elem_of_fmap. exists y. split; [done|]. by eapply list_elem_of_lookup_2.
Qed.

(** X16. [UpdatePlayer] returns [ErrPlayerNotFound] and changes nothing when
    no seated or queued player has the id of the given record; otherwise
    (ids being distinct) it stores the given record in place of the one
    with that id, in the same seat or queue position, and leaves every
    other player, the board, the turn marker and the status alone. *)
Theorem UpdatePlayer_replaces (p : Player) (g : Game) :
  (ID p ∉ ids g → UpdatePlayer p g = (Returned (Some ErrPlayerNotFound), g))
  ∧ (ID p ∈ ids g → NoDup (ids g) →
     ∃ g', UpdatePlayer p g = (Returned None, g')
       ∧ players g' = replace_record p <$> players g
       ∧ Game_Board g' = Game_Board g ∧ Game_Move g' = Game_Move g
       ∧ Game_Status g' = Game_Status g).
Proof.
  split; [apply UpdatePlayer_unknown|].
  intros Hin Hnd. unfold UpdatePlayer. monad_unfold.
  unfold ids, players in *. revert Hin Hnd. rewrite !fmap_app.
  destruct (seat_is (Game_X g) (ID p)) eqn:Hx.
  { apply seat_is_true in Hx as (x & Hx & Hid). rewrite Hx. cbn.
    intros _ [Hout Hnd]%NoDup_cons. eexists. split; [done|]. cbn. split_and!; try done.
    unfold replace_record at 1. rewrite decide_True by done. rewrite ?Hx. cbn.
    rewrite <- fmap_app in Hout.
    rewrite <- (fmap_app (replace_record p)), replace_record_absent; [done|]. by rewrite <- Hid. }
  destruct (seat_is (Game_O g) (ID p)) eqn:Ho.
  { apply seat_is_true in Ho as (o & Ho & Hid). rewrite Ho. cbn.
    intros _ Hnd. eexists. split; [done|]. cbn. split_and!; try done.
    unfold replace_record at 2. rewrite decide_True by done.
    apply NoDup_app in Hnd as (_ & Hsep & [Ho' Hq]%NoDup_cons).
    rewrite !replace_record_absent; [done|by rewrite <- Hid|].
    intros Hin. apply (Hsep _ Hin). rewrite <- Hid. by left. }
  rewrite seat_is_false in Hx, Ho.
  destruct (list_find _ _) as [[i y]|] eqn:Hfind.
  - apply list_find_Some in Hfind as (Hq & Hid & _).
    intros _ (_ & _ & (_ & _ & Hnd)%NoDup_app)%NoDup_app.
    eexists. split; [done|]. cbn. split_and!; try done.
    rewrite (replace_record_insert p y _ i Hq Hid Hnd).
    assert (∀ s : option Player, (∀ q, s = Some q → ID q ≠ ID p) →
            replace_record p <$> option_list s = option_list s) as Hseat.
    { intros [q|] Hs; [|done]. cbn. unfold replace_record. by rewrite decide_False by eauto. }
    by rewrite !Hseat.
  - intros Hin _. exfalso. rewrite !elem_of_app in Hin.
    destruct Hin as [Hin|[Hin|Hin]].
    + destruct (Game_X g) as [x|]; [|by apply elem_of_nil in Hin].
      apply list_elem_of_singleton in Hin. by eapply Hx.
    + destruct (Game_O g) as [o|]; [|by apply elem_of_nil in Hin].
      apply list_elem_of_singleton in Hin. by eapply Ho.
    + apply list_elem_of_fmap in Hin as (q & Hid & Hin).
      eapply list_find_None, Forall_forall in Hfind; [|done]. done.
Qed.

Lemma UpdatePlayer_replaces_witness :
  ∃ g', UpdatePlayer (mkPlayer "carol" (Some "Carol")) started_queued = (Returned None, g')
    ∧ players g' = replace_record (mkPlayer "carol" (Some "Carol")) <$> players started_queued
    ∧ Game_Board g' = Game_Board started_queued
    ∧ Game_Move g' = Game_Move started_queued
    ∧ Game_Status g' = Game_Status started_queued.
Proof.
  apply (UpdatePlayer_replaces (mkPlayer "carol" (Some "Carol")) started_queued).
  - apply (bool_decide_unpack _). by vm_compute.
  - apply (bool_decide_unpack _). by vm_compute.
Defined.

(** ** Removing players *)

(** [NextGame] always returns; its only error is [ErrGameInProgress], for
    a stored status outside the five it switches on. *)
Lemma NextGame_outcome (coin : bool) (g : Game) :
  (∃ g', NextGame coin g = (Returned None, g')
     ∧ (Game_Status g = XWins ∨ Game_Status g = OWins ∨ Game_Status g = Cats
        ∨ Game_Status g = InProgress ∨ Game_Status g = InsufficientPlayers))
  ∨ (NextGame coin g = (Returned (Some ErrGameInProgress), g)
     ∧ Game_Status g ≠ XWins ∧ Game_Status g ≠ OWins ∧ Game_Status g ≠ Cats
     ∧ Game_Status g ≠ InProgress ∧ Game_Status g ≠ InsufficientPlayers).
Proof.
  unfold NextGame. monad_unfold.
  destruct coin; run; try (left; eexists; split; [reflexivity|]; by auto 6).
  all: by right.
Qed.

Lemma RemovePlayer_unknown (id : string) (coin : bool) (g : Game) :
  id ∉ ids g → RemovePlayer id coin g = (Returned (Some ErrPlayerNotFound), g).
Proof.
  rewrite ids_elem_of. intros Hout. unfold RemovePlayer. monad_unfold.
  destruct (seat_is (Game_X g) id); [tauto|].
  destruct (seat_is (Game_O g) id); [tauto|].
  destruct (list_find _ _) as [[i q]|]; [|done]. exfalso. apply Hout. right; right. by eexists.
Qed.

(** X17. In a state satisfying the engine invariant, [RemovePlayer] returns
    [ErrPlayerNotFound] exactly when the id is neither seated nor queued,
    and then the game is unchanged; for a known id it returns no error (in
    particular the [NextGame] it calls for a seated player cannot
    fail). *)
Theorem RemovePlayer_error_iff (id : string) (coin : bool) (g : Game) :
  Inv g →
  ∃ r g', RemovePlayer id coin g = (Returned r, g')
    ∧ (r = Some ErrPlayerNotFound ∧ (id ∉ ids g) ∧ g' = g
       ∨ r = None ∧ id ∈ ids g).
Proof.
  intros HI. destruct (decide (id ∈ ids g)) as [Hin|Hout].
  2:{ exists (Some ErrPlayerNotFound), g. split; [by apply RemovePlayer_unknown|by left]. }
  pose proof (Inv_status_cases g HI) as Hst.
  unfold RemovePlayer. monad_unfold.
  destruct (seat_is (Game_X g) id) eqn:Hx.
  { destruct (NextGame_outcome coin (set_Board (Some blankBoard) (set_X None g)))
      as [(g' & -> & _)|(_ & H1 & H2 & H3 & H4 & H5)]; [exists None, g'; by auto|].
    cbn in *. exfalso. tauto. }
  destruct (seat_is (Game_O g) id) eqn:Ho.
  { destruct (NextGame_outcome coin (set_Board (Some blankBoard) (set_O None g)))
      as [(g' & -> & _)|(_ & H1 & H2 & H3 & H4 & H5)]; [exists None, g'; by auto|].
    cbn in *. exfalso. tauto. }
  destruct (list_find _ _) as [[i q]|] eqn:Hfind.
  - eexists None, _. split; [done|by right].
  - exfalso. apply ids_elem_of in Hin. rewrite Hx, Ho, Hfind in Hin.
    destruct Hin as [?|[?|[? ?]]]; done.
Qed.

Lemma RemovePlayer_error_iff_witness :
  ∃ r g', RemovePlayer "dave" true started_queued = (Returned r, g')
    ∧ (r = Some ErrPlayerNotFound ∧ ("dave" ∉ ids started_queued) ∧ g' = started_queued
       ∨ r = None ∧ "dave" ∈ ids started_queued).
Proof.
  apply (RemovePlayer_error_iff "dave" true started_queued).
  split; [reflexivity|by eexists|by intros [?|?]|by right; left].
Defined.

(** X18. After [RemovePlayer] the removed id is neither seated nor queued,
    whichever seat the rotation that follows refills (ids being
    distinct). *)
Theorem RemovePlayer_gone (id : string) (coin : bool) (g : Game) :
  NoDup (ids g) → id ∉ ids (RemovePlayer id coin g).2.
Proof.
  intros Hnd. unfold RemovePlayer. monad_unfold.
  destruct (seat_is (Game_X g) id) eqn:Hx.
  { apply seat_is_true in Hx as (x & Hx & <-).
    unfold ids. rewrite NextGame_players. revert Hnd. unfold ids, players. cbn.
    rewrite Hx. cbn. by intros [? _]%NoDup_cons. }
  destruct (seat_is (Game_O g) id) eqn:Ho.
  { apply seat_is_true in Ho as (o & Ho & <-).
    unfold ids. rewrite NextGame_players. revert Hnd. unfold ids, players. cbn.
    rewrite Ho, !fmap_app. cbn.
    intros (_ & Hsep & [Hq _]%NoDup_cons)%NoDup_app Hin.
    apply elem_of_app in Hin as [Hin|Hin]; [|done].
    apply (Hsep _ Hin). by left. }
  rewrite seat_is_false in Hx, Ho.
  assert (∀ s : option Player, (∀ q, s = Some q → ID q ≠ id) → id ∉ ID <$> option_list s)
    as Hseat.
  { intros [q|] Hs; cbn; [|by intros ?%elem_of_nil].
    rewrite list_elem_of_singleton. intros ->. by eapply Hs. }
  destruct (list_find _ _) as [[i q]|] eqn:Hfind; cbn.
  - apply list_find_Some in Hfind as (Hq & <- & _).
    revert Hnd. unfold ids, players. cbn. rewrite !fmap_app.
    rewrite <- (take_drop_middle _ _ _ Hq) at 1. rewrite fmap_app. cbn.
    intros (_ & _ & (_ & _ & Hnd)%NoDup_app)%NoDup_app.
    apply NoDup_app in Hnd as (_ & Hsep & [Hdrop _]%NoDup_cons).
    rewrite !elem_of_app. intros [Hin|[Hin|[Hin|Hin]]].
    + exact (Hseat _ Hx Hin).
    + exact (Hseat _ Ho Hin).
    + apply (Hsep _ Hin). by left.
    + done.
  - unfold ids, players. rewrite !fmap_app, !elem_of_app. intros [Hin|[Hin|Hin]].
    + exact (Hseat _ Hx Hin).
    + exact (Hseat _ Ho Hin).
    + apply list_elem_of_fmap in Hin as (q & -> & Hin).
      eapply list_find_None, Forall_forall in Hfind; [|done]. done.
Qed.

Lemma RemovePlayer_gone_witness :
  "bob" ∉ ids (RemovePlayer "bob" true started_queued).2.
Proof.
  apply (RemovePlayer_gone "bob" true started_queued).
  apply (bool_decide_unpack _). by vm_compute.
Defined.

Lemma filter_all {A} (P : A → Prop) `{!∀ x, Decision (P x)} (l : list A) :
  (∀ x, x ∈ l → P x) → filter P l = l.
Proof.
  induction l as [|x l IH]; intros Hall; [done|].
  rewrite filter_cons_True by (apply Hall; by left).
  f_equal. apply IH. intros y Hy. apply Hall. by right.
Qed.

Lemma splice_filter (id : string) (q : list Player) (i : nat) (y : Player) :
  list_find (λ p, ID p = id) q = Some (i, y) → NoDup (ID <$> q) →
  (take i q ++ drop (S i) q)%list = filter (λ p, ID p ≠ id) q.
Proof.
  revert i. induction q as [|p q IH]; intros i Hfind Hnd; [done|].
  cbn in Hnd. apply NoDup_cons in Hnd as [Hp Hnd].
  apply list_find_Some in Hfind as (Hi & Hid & Hleast).
  destruct i as [|i]; cbn in Hi; cbn [take drop app].
  - injection Hi as ->. rewrite filter_cons_False by (by intros ?).
    symmetry. apply filter_all.
    intros p Hin Heq. apply Hp. rewrite Hid, <- Heq.
    apply list_elem_of_fmap. by exists p.
  - assert (ID p ≠ id) as Hne by (apply (Hleast 0%nat); [done|lia]).
    rewrite filter_cons_True by done. f_equal. apply IH; [|done].
    apply list_find_Some. split_and!; [done..|].
    intros j z Hj Hlt. apply (Hleast (S j)); [done|lia].
Qed.

(** ** Round advancement, the other branches *)

(** X19. Removing a player who waits in the queue deletes exactly that
    entry: the queue keeps its other players in order, and seats, board,
    turn marker and status are untouched (the round in progress goes
    on). *)
Theorem RemovePlayer_queued (id : string) (coin : bool) (g : Game) :
  (∀ x, Game_X g = Some x → ID x ≠ id) →
  (∀ o, Game_O g = Some o → ID o ≠ id) →
  id ∈ ID <$> Game_Queue g →
  NoDup (ID <$> Game_Queue g) →
  RemovePlayer id coin g =
    (Returned None, set_Queue (filter (λ p, ID p ≠ id) (Game_Queue g)) g).
Proof.
  intros Hx Ho Hin Hnd. unfold RemovePlayer. monad_unfold.
  rewrite <- seat_is_false in Hx, Ho. rewrite Hx, Ho.
  destruct (list_find _ _) as [[i y]|] eqn:Hfind.
  - by rewrite (splice_filter id _ i y Hfind Hnd).
  - exfalso. apply list_elem_of_fmap in Hin as (q & -> & Hin).
    eapply list_find_None, Forall_forall in Hfind; [|done]. done.
Qed.

Lemma RemovePlayer_queued_witness :
  RemovePlayer "carol" true started_queued
  = (Returned None,
     set_Queue (filter (λ p, ID p ≠ "carol") (Game_Queue started_queued)) started_queued).
Proof.
  apply (RemovePlayer_queued "carol" true started_queued).
  - by intros x [= <-].
  - by intros o [= <-].
  - apply (bool_decide_unpack _). by vm_compute.
  - apply (bool_decide_unpack _). by vm_compute.
Defined.

(** X20. At a full table, adding a player with a new id appends the player
    to the queue, and removing that id again gives back exactly the game
    before the two calls. *)
Theorem AddPlayer_RemovePlayer_roundtrip (p : Player) (coin : bool) (g : Game) :
  is_Some (Game_X g) → is_Some (Game_O g) → ID p ∉ ids g →
  ∃ g1, AddPlayer p g = (Returned None, g1)
    ∧ Game_Queue g1 = (Game_Queue g ++ [p])%list
    ∧ RemovePlayer (ID p) coin g1 = (Returned None, g).
Proof.
  intros [x Hx] [o Ho] Hout. rewrite AddPlayer_fresh by done.
  unfold seated. rewrite Hx, Ho. eexists. split; [done|]. split; [done|].
  pose proof Hout as Hout'. rewrite ids_elem_of in Hout'.
  unfold RemovePlayer. monad_unfold. cbn.
  destruct (seat_is (Game_X g) (ID p)); [tauto|].
  destruct (seat_is (Game_O g) (ID p)); [tauto|].
  assert (list_find (λ q, ID q = ID p) (Game_Queue g) = None) as Hnone.
  { destruct (list_find _ _) eqn:Hfind; [|done]. exfalso. apply Hout'. right; right. by eexists. }
  rewrite list_find_app_r by done. cbn. rewrite decide_True by done. cbn.
  rewrite take_app_length.
  replace (drop (S (length (Game_Queue g))) (Game_Queue g ++ [p])) with (@nil Player).
  - rewrite app_nil_r. by destruct g.
  - rewrite drop_app_ge by lia. replace (S _ - _)%nat with 1%nat by lia. done.
Qed.

Lemma AddPlayer_RemovePlayer_roundtrip_witness :
  ∃ g1, AddPlayer dave started_queued = (Returned None, g1)
    ∧ Game_Queue g1 = [carol; dave]
    ∧ RemovePlayer "dave" true g1 = (Returned None, started_queued).
Proof.
  apply (AddPlayer_RemovePlayer_roundtrip dave true started_queued).
  - by eexists.
  - by eexists.
  - apply (bool_decide_unpack _). by vm_compute.
Defined.

(** ** Round advancement, the other branches *)

(** X21. After a win of O, [NextGame] keeps the winner in seat O, moves the
    loser from seat X to the end of the queue and seats the head of the
    queue in X (the loser again when the queue is empty), clears the board
    and gives X the first move. *)
Theorem NextGame_OWins (coin : bool) (g : Game) :
  Game_Status g = OWins →
  ∃ g', NextGame coin g = (Returned None, g')
    ∧ Game_O g' = Game_O g
    ∧ Game_X g' = head (Game_Queue g ++ option_list (Game_X g))
    ∧ Game_Queue g' = tail (Game_Queue g ++ option_list (Game_X g))
    ∧ Game_Board g' = Some blankBoard
    ∧ Game_Move g' = "X".
Proof.
  intros Hs. unfold NextGame. monad_unfold.
  rewrite Hs. repeat first [rewrite decide_True by done | rewrite decide_False by done].
  rewrite advanceQueue_eq. cbn.
  eexists. split; [reflexivity|]. by cbn.
Qed.

Lemma NextGame_OWins_witness :
  ∃ g', NextGame true o_column_game = (Returned None, g')
    ∧ Game_O g' = Some bob
    ∧ Game_X g' = Some carol
    ∧ Game_Queue g' = [alice]
    ∧ Game_Board g' = Some blankBoard
    ∧ Game_Move g' = "X".
Proof. apply (NextGame_OWins true o_column_game). by vm_compute. Defined.

(** X22. After a draw, [NextGame] clears the board and rotates exactly one
    seat, chosen by the coin: that seat's occupant goes to the end of the
    queue, the head of the queue takes the seat and gets the first move;
    the other seat keeps its occupant. *)
Theorem NextGame_Cats (coin : bool) (g : Game) :
  Game_Status g = Cats →
  ∃ g', NextGame coin g = (Returned None, g')
    ∧ Game_Board g' = Some blankBoard
    ∧ if coin then
        Game_X g' = Game_X g
        ∧ Game_O g' = head (Game_Queue g ++ option_list (Game_O g))
        ∧ Game_Queue g' = tail (Game_Queue g ++ option_list (Game_O g))
        ∧ Game_Move g' = "O"
      else
        Game_O g' = Game_O g
        ∧ Game_X g' = head (Game_Queue g ++ option_list (Game_X g))
        ∧ Game_Queue g' = tail (Game_Queue g ++ option_list (Game_X g))
        ∧ Game_Move g' = "X".
Proof.
  intros Hs. unfold NextGame. monad_unfold.
  rewrite Hs. repeat first [rewrite decide_True by done | rewrite decide_False by done].
  destruct coin; rewrite advanceQueue_eq; cbn;
    (eexists; split; [reflexivity|]; by cbn).
Qed.

Lemma NextGame_Cats_witness :
  ∃ g', NextGame false drawn_game = (Returned None, g')
    ∧ Game_Board g' = Some blankBoard
    ∧ Game_O g' = Some bob
    ∧ Game_X g' = Some carol
    ∧ Game_Queue g' = [alice]
    ∧ Game_Move g' = "X".
Proof. apply (NextGame_Cats false drawn_game). by vm_compute. Defined.

Lemma NextGame_settled (coin : bool) (g : Game) :
  Coherent g →
  Game_Status g = InProgress ∨ Game_Status g = InsufficientPlayers →
  NextGame coin g = (Returned None, g).
Proof.
  intros [Hs Hm] Hst. unfold NextGame. monad_unfold.
  destruct Hst as [Hst|Hst]; rewrite Hst;
    repeat first [rewrite decide_True by done | rewrite decide_False by done].
  - assert (Game_X g ≠ None ∧ Game_O g ≠ None) as [Hx Ho].
    { rewrite Hs in Hst. unfold status in Hst. case_decide as Hseat; [done|]. tauto. }
    rewrite decide_False by done. cbn. rewrite decide_False by done. cbn.
    rewrite <- Hs. by destruct g.
  - cbn. rewrite <- Hs. by destruct g.
Qed.

(** X23. Calling [NextGame] while a round is in progress with both seats
    taken, or while the table waits for players, changes nothing and
    returns no error: a round cannot be cut short this way. *)
Theorem NextGame_idle (coin : bool) (g : Game) :
  Coherent g →
  Game_Status g = InProgress ∨ Game_Status g = InsufficientPlayers →
  NextGame coin g = (Returned None, g).
Proof. apply NextGame_settled. Qed.

Lemma NextGame_idle_witness : NextGame true started = (Returned None, started).
Proof.
  apply (NextGame_idle true started).
  - split; [reflexivity|by left].
  - by left.
Defined.

(** X24. [NextGame] always returns and never loses or duplicates a player:
    the players in seats and queue after the call are a permutation of
    those before.  It returns an error, [ErrGameInProgress], exactly when
    the stored status is none of the five it switches on, and then it
    changes nothing. *)
Theorem NextGame_conserves_players (coin : bool) (g : Game) :
  ∃ r g', NextGame coin g = (Returned r, g')
    ∧ players g' ≡ₚ players g
    ∧ (is_Some r ↔
       Game_Status g ∉ [XWins; OWins; Cats; InProgress; InsufficientPlayers])
    ∧ (is_Some r → r = Some ErrGameInProgress ∧ g' = g).
Proof.
  pose proof (NextGame_players coin g) as Hperm.
  destruct (NextGame_outcome coin g)
    as [(g' & Hrun & Hst)|(Hrun & H1 & H2 & H3 & H4 & H5)];
    rewrite Hrun in *; cbn in Hperm.
  - exists None, g'. split_and!; [done|done| |by intros [? [=]]].
    split; [by intros [? [=]]|]. intros Hout. exfalso. apply Hout.
    rewrite !elem_of_cons. tauto.
  - eexists _, g. split_and!; [done|done| |done].
    split; [|by eexists]. intros _. rewrite !not_elem_of_cons. split_and!; try done.
    apply not_elem_of_nil.
Qed.



(** ** The restart handler *)

(** X26. The restart handler always answers 200 and, since its call of
    [Clear] has no effect on the handler's game, does to the game exactly
    what [NextGame] alone does; in particular, restarting while a round is
    in progress or while the table waits for players leaves the game as it
    is. *)
Theorem Restart_is_NextGame (g : nat) (coin : bool) (h : Heap) (this : Game) :
  h !! g = Some this →
  (∃ o h', Restart g coin h = (Returned o, h')
     ∧ h' !! g = Some (NextGame coin this).2)
  ∧ (Coherent this →
     Game_Status this = InProgress ∨ Game_Status this = InsufficientPlayers →
     ∃ h', Restart g coin h = (Returned (), h') ∧ h' !! g = Some this).
Proof.
  intros Hg.
  assert (∃ r this', NextGame coin this = (Returned r, this')) as (r & this' & Hnext).
  { destruct (NextGame_outcome coin this) as [(g' & -> & _)|(-> & _)]; by eexists _, _. }
  assert (∃ h', Restart g coin h = (Returned (), h') ∧ h' !! g = Some this')
    as (h' & Hrun & Hlook).
  { unfold Restart, Clear, New_alloc. rewrite Hg.
    rewrite (lookup_app_l_Some _ _ _ _ Hg). rewrite Hnext.
    eexists. split; [reflexivity|].
    apply list_lookup_insert_eq. rewrite length_app. apply lookup_lt_Some in Hg. lia. }
  split.
  - exists (), h'. by rewrite Hnext.
  - intros HC Hst. rewrite (NextGame_settled coin this HC Hst) in Hnext.
    injection Hnext as _ <-. by exists h'.
Qed.

Lemma Restart_is_NextGame_witness :
  (∃ o h', Restart 0 true started_heap = (Returned o, h')
     ∧ h' !! 0%nat = Some (NextGame true started).2)
  ∧ (Coherent started →
     Game_Status started = InProgress ∨ Game_Status started = InsufficientPlayers →
     ∃ h', Restart 0 true started_heap = (Returned (), h') ∧ h' !! 0%nat = Some started).
Proof. apply (Restart_is_NextGame 0 true started_heap started). reflexivity. Defined.
